(** * fix_user_roles.py: the migration rewriter, embedded and verified

    The script walks a fixed list of SQL migration files; every file that
    exists is read as text, each occurrence of one regular expression is
    replaced by [public.is_admin()], the result is written back and the
    number of occurrences is printed.

    Layout of this development:
    - Python text: strings as lists of code points, the white-space class;
    - the regular-expression engine restricted to the syntax the pattern
      uses (escaped literals and the greedy [\s*]), [re.sub], [re.findall];
    - text-mode file I/O (universal newlines) over a finite map of paths,
      in a small error monad that records every effect;
    - the script itself;
    - the notions its properties are stated in, and sample inputs;
    - the theory of the matcher and of the scan, the facts about the
      script's pattern, the loop over the files;
    - the properties of the script, C1 to C10. *)

From Stdlib Require Import NArith List String Ascii DecimalString Lia.
From stdpp Require Import base option list strings gmap.

Local Open Scope N_scope.
Local Open Scope nat_scope.
Local Open Scope list_scope.

(** ** Python text *)

(** A Python [str] is a sequence of Unicode code points. *)
Abbreviation str := (list N).

(** The code points of an ASCII literal of the script. *)
Fixpoint str_of (s : string) : str :=
  match s with
  | EmptyString => []
  | String a s' => N_of_ascii a :: str_of s'
  end.

(** [\s] on a [str] pattern is [Py_UNICODE_ISSPACE]: the ASCII controls
    9..13 and 28..31, the blank, and the Unicode white-space code points. *)
Definition is_space (c : N) : bool :=
  ((9 <=? c) && (c <=? 13) || (28 <=? c) && (c <=? 32)
   || (c =? 133) || (c =? 160) || (c =? 5760)
   || (8192 <=? c) && (c <=? 8202)
   || (c =? 8232) || (c =? 8233) || (c =? 8239) || (c =? 8287)
   || (c =? 12288))%N.

(** Lower-casing of the ASCII letters, the only letters of the pattern. *)
Definition ascii_lower (c : N) : N :=
  if ((65 <=? c) && (c <=? 90))%N then (c + 32)%N else c.

(** ** The regular-expression engine *)

(** The flag bits of the [re] module. *)
Definition re_IGNORECASE : N := 2.
Definition re_MULTILINE : N := 8.
Definition re_DOTALL : N := 16.

(** The syntax the script's pattern is written in: a sequence of literal
    characters and of greedy white-space runs [\s*]. *)
Inductive atom : Type :=
  | Lit (c : N)
  | SpaceStar.

Abbreviation regex := (list atom).

Definition is_meta (a : ascii) : bool :=
  existsb (Ascii.eqb a)
    ["."; "^"; "$"; "*"; "+"; "?"; "{"; "}"; "["; "]"; "|"; "("; ")"; "\"]%char.

Definition is_alnum (a : ascii) : bool :=
  let n := N_of_ascii a in
  ((48 <=? n) && (n <=? 57) || (65 <=? n) && (n <=? 90)
   || (97 <=? n) && (n <=? 122))%N.

(** [re.compile] on that syntax: [\s*] is a white-space run, a backslash
    before a character that is neither a letter nor a digit makes it a
    literal, every other character that is not a metacharacter stands for
    itself.  Anything else is outside the fragment. *)
Fixpoint parse (s : string) : option regex :=
  match s with
  | EmptyString => Some []
  | String "\" (String "s" (String "*" rest)) =>
      cons SpaceStar <$> parse rest
  | String "\" (String c rest) =>
      if is_alnum c then None else cons (Lit (N_of_ascii c)) <$> parse rest
  | String c rest =>
      if is_meta c then None else cons (Lit (N_of_ascii c)) <$> parse rest
  end.

(** Comparison of a subject character with a pattern literal.  Under
    [re.IGNORECASE], which the script does not set, the ASCII letters
    compare without regard to case. *)
Definition chr_matches (flags : N) (c x : N) : bool :=
  if N.testbit flags 1 then (ascii_lower x =? ascii_lower c)%N else (x =? c)%N.

(** The greedy star of the backtracking engine: take a white-space
    character and go on; when the rest of the pattern fails after that,
    give the character back and try the rest of the pattern here. *)
Fixpoint greedy_spaces (k : str → option nat) (s : str) : option nat :=
  match s with
  | x :: s' =>
      if is_space x then
        match greedy_spaces k s' with
        | Some n => Some (S n)
        | None => k s
        end
      else k s
  | [] => k s
  end.

(** Match the pattern at the start of the subject; the result is the length
    of the text matched. *)
Fixpoint match_here (flags : N) (r : regex) : str → option nat :=
  match r with
  | [] => fun _ => Some 0
  | Lit c :: r' => fun s =>
      match s with
      | x :: s' =>
          if chr_matches flags c x then S <$> match_here flags r' s' else None
      | [] => None
      end
  | SpaceStar :: r' => greedy_spaces (match_here flags r')
  end.

(** The loop of [re.sub]: scan the subject from left to right; at a match,
    emit the replacement and resume at the end of the match; elsewhere copy
    one character.  [skip] counts the characters of the current match that
    are still to be passed over.  An empty match emits the replacement and
    the engine must advance, which in this fragment copies the next
    character.  The second component counts the substitutions. *)
Fixpoint subx (flags : N) (r : regex) (repl : str) (skip : nat) (s : str)
  : str * nat :=
  match skip, s with
  | S k, _ :: t => subx flags r repl k t
  | S _, [] => ([], 0)
  | 0, [] =>
      match match_here flags r [] with
      | Some _ => (repl, 1)
      | None => ([], 0)
      end
  | 0, x :: t =>
      match match_here flags r s with
      | Some 0 =>
          let '(o, n) := subx flags r repl 0 t in (repl ++ x :: o, S n)
      | Some (S k) =>
          let '(o, n) := subx flags r repl k t in (repl ++ o, S n)
      | None =>
          let '(o, n) := subx flags r repl 0 t in (x :: o, n)
      end
  end.

(** [re.subn] and [re.sub]; the replacement is taken as it is, which is
    what the engine does with a replacement without backslash. *)
Definition re_subn (r : regex) (repl s : str) (flags : N) : str * nat :=
  subx flags r repl 0 s.

Definition re_sub (r : regex) (repl s : str) (flags : N) : str :=
  fst (re_subn r repl s flags).

(** The loop of [re.findall] for a pattern without groups: the texts of the
    non-overlapping matches, leftmost first. *)
Fixpoint findall_from (flags : N) (r : regex) (skip : nat) (s : str)
  : list str :=
  match skip, s with
  | S k, _ :: t => findall_from flags r k t
  | S _, [] => []
  | 0, [] =>
      match match_here flags r [] with
      | Some _ => [[]]
      | None => []
      end
  | 0, x :: t =>
      match match_here flags r s with
      | Some 0 => [] :: findall_from flags r 0 t
      | Some (S k) => take (S k) s :: findall_from flags r k t
      | None => findall_from flags r 0 t
      end
  end.

Definition re_findall (r : regex) (s : str) (flags : N) : list str :=
  findall_from flags r 0 s.

(** ** The constants of the script *)

Definition pattern_src : string :=
  "EXISTS \(\s*SELECT 1 FROM user_roles\s*WHERE user_id = auth\.uid\(\) AND role = \'admin\'\s*\)".

Definition pattern : regex :=
  Eval vm_compute in default [] (parse pattern_src).

Definition replacement : str := str_of "public.is_admin()".

Definition migrations_dir : string := "supabase/migrations".

Definition files_to_fix : list string :=
  [ "20250807120000_create_performance_monitoring.sql";
    "20250808120000_create_batch_jobs_and_webhook_monitoring.sql";
    "20250808140000_create_migration_control_system.sql";
    "20250808150000_create_production_validation_system.sql";
    "20250808160000_create_global_optimization_system.sql";
    "20250808170000_create_security_hardening_system.sql";
    "20250808180000_create_connection_pooling_system.sql";
    "20250808190000_create_performance_optimization_system.sql" ]%string.

(** The flags of both calls: [re.MULTILINE | re.DOTALL]. *)
Definition flags : N := N.lor re_MULTILINE re_DOTALL.

Definition nl : N := 10.
Definition cr : N := 13.


(** ** Text-mode file I/O *)

(** The script runs on a POSIX system or on Windows; the two differ in the
    line separator written and in the path separator. *)
Inductive platform : Type := Posix | Windows.

Definition linesep (plat : platform) : str :=
  match plat with
  | Posix => [nl]
  | Windows => [cr; nl]
  end.

Definition is_sep (plat : platform) (a : ascii) : bool :=
  match plat with
  | Posix => Ascii.eqb a "/"
  | Windows => Ascii.eqb a "/" || Ascii.eqb a "\"
  end.

Definition sep (plat : platform) : string :=
  match plat with
  | Posix => "/"
  | Windows => "\"
  end.

Fixpoint last_char (s : string) : option ascii :=
  match s with
  | EmptyString => None
  | String a EmptyString => Some a
  | String _ s' => last_char s'
  end.

(** [os.path.join a b] for two components, [b] without a drive letter: an
    absolute [b] replaces [a]; the separator is added unless [a] is empty
    or already ends with one. *)
Definition path_join (plat : platform) (a b : string) : string :=
  match b with
  | String c _ =>
      if is_sep plat c then b
      else match last_char a with
           | None => b
           | Some z => if is_sep plat z then a +:+ b else a +:+ sep plat +:+ b
           end
  | EmptyString =>
      match last_char a with
      | None => b
      | Some z => if is_sep plat z then a else a +:+ sep plat
      end
  end.

(** What [open(path, 'r')] with the default [newline=None] hands to the
    program: [\r\n] and a lone [\r] both arrive as [\n]. *)
Fixpoint universal_newlines (s : str) : str :=
  match s with
  | [] => []
  | x :: t =>
      if (x =? cr)%N then
        nl :: match t with
              | y :: t' =>
                  if (y =? nl)%N then universal_newlines t'
                  else universal_newlines t
              | [] => []
              end
      else x :: universal_newlines t
  end.

(** What [open(path, 'w')] stores: every [\n] written becomes
    [os.linesep]. *)
Definition translate_newlines (plat : platform) (s : str) : str :=
  flat_map (fun x => if (x =? nl)%N then linesep plat else [x]) s.

(** A path that exists.  [data] is the decoded text as stored, before
    newline translation; [None] stands for a path whose content cannot be
    read as text (a directory, no read permission, bytes that do not
    decode).  [writable] tells whether [open(path, 'w')] succeeds. *)
Record file : Type := File { data : option str; writable : bool }.

Abbreviation disk := (gmap string file).

Inductive exn : Type :=
  | FileNotFoundError (path : string)
  | ReadError (path : string)
  | WriteError (path : string).

Inductive event : Type :=
  | Printed (line : string)
  | ReadFile (path : string)
  | WroteFile (path : string) (text : str).

(** The state of a run: how it ended, the files, and what it did. *)
Record run (A : Type) : Type :=
  Run { outcome : exn + A; files : disk; events : list event }.
Arguments Run {A} _ _ _.
Arguments outcome {A} _.
Arguments files {A} _.
Arguments events {A} _.

(** A Python statement: from the files before it to a run.  An exception
    ends the sequence; nothing in the script catches one. *)
Definition io (A : Type) : Type := disk → run A.

Definition io_ret {A} (a : A) : io A := fun d => Run (inr a) d [].

Definition io_bind {A B} (k : A → io B) (m : io A) : io B := fun d =>
  let r := m d in
  match outcome r with
  | inl e => Run (inl e) (files r) (events r)
  | inr a =>
      let r' := k a (files r) in
      Run (outcome r') (files r') (events r ++ events r')
  end.

#[global] Instance io_mret : MRet io := @io_ret.
#[global] Instance io_mbind : MBind io := @io_bind.

Definition raise {A} (e : exn) : io A := fun d => Run (inl e) d [].

Definition print (line : string) : io unit := fun d =>
  Run (inr tt) d [Printed line].

Definition path_exists (path : string) : io bool := fun d =>
  Run (inr (bool_decide (is_Some (d !! path)))) d [].

(** [with open(path, 'r') as f: f.read()] *)
Definition read_text (path : string) : io str := fun d =>
  match d !! path with
  | None => Run (inl (FileNotFoundError path)) d []
  | Some f =>
      match data f with
      | None => Run (inl (ReadError path)) d []
      | Some raw => Run (inr (universal_newlines raw)) d [ReadFile path]
      end
  end.

(** [with open(path, 'w') as f: f.write(text)]: the file is created when
    absent and replaced when present. *)
Definition write_text (plat : platform) (path : string) (text : str)
  : io unit := fun d =>
  let stored := File (Some (translate_newlines plat text)) true in
  match d !! path with
  | None => Run (inr tt) (<[path := stored]> d) [WroteFile path text]
  | Some f =>
      if writable f
      then Run (inr tt) (<[path := stored]> d) [WroteFile path text]
      else Run (inl (WriteError path)) d []
  end.

(** ** The script *)

(** An integer in an f-string. *)
Definition show_nat (n : nat) : string :=
  NilZero.string_of_uint (Nat.to_uint n).

Fixpoint for_each {A} (l : list A) (body : A → io unit) : io unit :=
  match l with
  | [] => mret tt
  | x :: l' => body x ;; for_each l' body
  end.

(** The body of the loop. *)
Definition fix_file (plat : platform) (filename : string) : io unit :=
  let filepath := path_join plat migrations_dir filename in
  found ← path_exists filepath;
  if found : bool then
    print ("Fixing " +:+ filename +:+ "...") ;;
    content ← read_text filepath;
    let new_content := re_sub pattern replacement content flags in
    let replacements := length (re_findall pattern content flags) in
    write_text plat filepath new_content ;;
    print ("  Made " +:+ show_nat replacements +:+ " replacements")
  else
    print ("File not found: " +:+ filename).

Definition main (plat : platform) : io unit :=
  for_each files_to_fix (fix_file plat) ;; print "Done!".

(** The console: the lines printed, in order. *)
Definition console (evs : list event) : list string :=
  omap (fun e => match e with Printed l => Some l | _ => None end) evs.



(** * The notions the statements are written in *)

(** ** What a pattern denotes

    The texts a pattern of the fragment stands for, read off the syntax:
    each literal is itself, each [\s*] is any run of white space. *)
Definition spaces (ws : str) : Prop := Forall (fun x => is_space x = true) ws.

Inductive matches : regex → str → Prop :=
  | matches_nil : matches [] []
  | matches_lit c r m : matches r m → matches (Lit c :: r) (c :: m)
  | matches_star r ws m :
      spaces ws → matches r m → matches (SpaceStar :: r) (ws ++ m).

(** A pattern is guarded when every [\s*] is followed by a literal that is
    not white space: the greedy run then never has to give anything back. *)
Fixpoint guarded (r : regex) : bool :=
  match r with
  | [] => true
  | Lit _ :: r' => guarded r'
  | SpaceStar :: r' =>
      match r' with
      | Lit c :: _ => negb (is_space c) && guarded r'
      | _ => false
      end
  end.

(** [avoids h a]: the atom [a] can never produce the character [h]. *)
Definition avoids (h : N) (a : atom) : bool :=
  match a with
  | Lit c => negb (c =? h)%N
  | SpaceStar => negb (is_space h)
  end.

(** A subject in which the pattern matches at no position. *)
Definition occurrence_free (fl : N) (r : regex) (s : str) : Prop :=
  ∀ k, match_here fl r (drop k s) = None.

(** The shape of a substitution: the subject is cut into gaps, in which no
    match starts, and matched texts; the gaps are kept and each matched
    text gives way to the replacement. *)
Inductive rewrites (fl : N) (r : regex) (repl : str)
  : str → list str → str → Prop :=
  | rewrites_end g : occurrence_free fl r g → rewrites fl r repl g [] g
  | rewrites_hit g m t ms o :
      (∀ k, k < length g → match_here fl r (drop k (g ++ m ++ t)) = None) →
      matches r m → rewrites fl r repl t ms o →
      rewrites fl r repl (g ++ m ++ t) (m :: ms) (g ++ repl ++ o).

(** The number of places of [s] where the text [w] starts. *)
Fixpoint starts_with (w s : str) : bool :=
  match w, s with
  | [], _ => true
  | a :: w', b :: s' => (a =? b)%N && starts_with w' s'
  | _ :: _, [] => false
  end.

Fixpoint count_of (w s : str) : nat :=
  match s with
  | [] => if starts_with w [] then 1 else 0
  | _ :: t => (if starts_with w s then 1 else 0) + count_of w t
  end.

(** ** The SQL fragment *)

Definition tok_exists : str := str_of "EXISTS (".
Definition tok_select : str := str_of "SELECT 1 FROM user_roles".
Definition tok_where : str := str_of "WHERE".
Definition tok_cond : str := str_of "user_id = auth.uid() AND role = 'admin'".
Definition tok_close : str := str_of ")".
Definition blank : N := 32.

(** The fragment with the white space [w1] .. [w4] between its five
    tokens. *)
Definition spaced_occurrence (w1 w2 w3 w4 : str) : str :=
  tok_exists ++ w1 ++ tok_select ++ w2 ++ tok_where ++ w3 ++ tok_cond
    ++ w4 ++ tok_close.

Definition single_line_occurrence : str :=
  spaced_occurrence [] [blank] [blank] [].

(** The literal characters of the pattern, and a text without its white
    space. *)
Definition literals (r : regex) : str :=
  omap (fun a => match a with Lit c => Some c | SpaceStar => None end) r.

Definition letters (s : str) : str :=
  List.filter (fun x => negb (is_space x)) s.

(** The fragment found when letter case is ignored ([re.IGNORECASE] added
    to the flags) is spelled in another case than the pattern when, white
    space apart, it is not the pattern's literal text. *)
Definition flags_nocase : N := N.lor flags re_IGNORECASE.

Definition other_case (m : str) : bool :=
  negb (bool_decide (letters m = letters (literals pattern))).

Definition only_in_other_case (s : str) : bool :=
  forallb
    (fun k =>
       match match_here flags_nocase pattern (drop k s) with
       | Some n => other_case (take n (drop k s))
       | None => true
       end)
    (seq 0 (S (length s))).

(** ** One file and the whole batch *)

Definition path_of (plat : platform) (filename : string) : string :=
  path_join plat migrations_dir filename.

Definition new_content_of (content : str) : str :=
  re_sub pattern replacement content flags.

Definition replacements_of (content : str) : nat :=
  length (re_findall pattern content flags).

(** A file the script can read and write. *)
Definition healthy_file (f : file) : bool :=
  match data f with
  | Some _ => writable f
  | None => false
  end.

(** No listed file that exists fails to be read or written. *)
Definition no_io_failure (plat : platform) (d : disk) (l : list string)
  : bool :=
  forallb
    (fun filename =>
       match d !! path_of plat filename with
       | Some f => healthy_file f
       | None => true
       end)
    l.

(** A file after the script has rewritten it. *)
Definition fix_node (plat : platform) (f : file) : file :=
  match data f with
  | Some raw =>
      File (Some (translate_newlines plat
                    (new_content_of (universal_newlines raw)))) true
  | None => f
  end.

(** What one turn of the loop does for [filename], read off the files
    before the turn. *)
Definition block (plat : platform) (d : disk) (filename : string)
  : list event :=
  let path := path_of plat filename in
  match d !! path with
  | None => [Printed ("File not found: " +:+ filename)]
  | Some f =>
      Printed ("Fixing " +:+ filename +:+ "...") ::
      match data f with
      | None => []
      | Some raw =>
          let content := universal_newlines raw in
          ReadFile path ::
          if writable f then
            [WroteFile path (new_content_of content);
             Printed ("  Made " +:+ show_nat (replacements_of content)
                      +:+ " replacements")]
          else []
      end
  end.

(** The lines the specification gives for one file. *)
Definition console_block (plat : platform) (d : disk) (filename : string)
  : list string :=
  match d !! path_of plat filename with
  | None => ["File not found: " +:+ filename]
  | Some f =>
      ["Fixing " +:+ filename +:+ "...";
       "  Made " +:+
         show_nat (replacements_of (universal_newlines (default [] (data f))))
         +:+ " replacements"]
  end.

(** The same lines for a file in which nothing is left to replace. *)
Definition quiet_block (plat : platform) (d : disk) (filename : string)
  : list string :=
  match d !! path_of plat filename with
  | None => ["File not found: " +:+ filename]
  | Some _ => ["Fixing " +:+ filename +:+ "..."; "  Made 0 replacements"]
  end.

(** How one turn of the loop ends, and the files after it. *)
Definition step_outcome (plat : platform) (d : disk) (filename : string)
  : exn + unit :=
  let path := path_of plat filename in
  match d !! path with
  | None => inr tt
  | Some f =>
      match data f with
      | None => inl (ReadError path)
      | Some _ => if writable f then inr tt else inl (WriteError path)
      end
  end.

Definition step_files (plat : platform) (d : disk) (filename : string)
  : disk :=
  let path := path_of plat filename in
  match d !! path with
  | Some f => if healthy_file f then <[path := fix_node plat f]> d else d
  | None => d
  end.

(** The exception of a file that fails, and the effects of its turn up
    to the failure: a file that cannot be read fails in the read, a file
    that can be read but not written fails in the write. *)
Definition failure (plat : platform) (filename : string) (f : file) : exn :=
  match data f with
  | Some _ => WriteError (path_of plat filename)
  | None => ReadError (path_of plat filename)
  end.

Definition failed_turn (plat : platform) (filename : string) (f : file)
  : list event :=
  Printed ("Fixing " +:+ filename +:+ "...") ::
  match data f with
  | Some _ => [ReadFile (path_of plat filename)]
  | None => []
  end.

Definition paths (plat : platform) (l : list string) : list string :=
  path_of plat <$> l.

(** The effects of one successful turn on a file whose text is
    [content]. *)
Definition turn (plat : platform) (filename : string) (content : str)
  : list event :=
  [ Printed ("Fixing " +:+ filename +:+ "...");
    ReadFile (path_of plat filename);
    WroteFile (path_of plat filename) (new_content_of content);
    Printed ("  Made " +:+ show_nat (replacements_of content)
             +:+ " replacements") ].

(** [t] happens, uninterrupted, in the course of [evs]. *)
Definition performs {A} (evs t : list A) : Prop :=
  ∃ before after, evs = before ++ t ++ after.

(** The number of positions of [s] at which the pattern matches, the
    overlapping ones included. *)
Fixpoint count_hits (fl : N) (r : regex) (s : str) : nat :=
  match s with
  | [] => match match_here fl r [] with Some _ => 1 | None => 0 end
  | _ :: t =>
      match match_here fl r s with Some _ => 1 | None => 0 end
      + count_hits fl r t
  end.

(** The sum of the lengths of a list of texts. *)
Definition total_length (ms : list str) : nat :=
  foldr (fun m n => length m + n) 0 ms.

(** ** Sample inputs *)

Definition demo_name : string :=
  "20250808120000_create_batch_jobs_and_webhook_monitoring.sql".

Definition next_name : string :=
  "20250808140000_create_migration_control_system.sql".

Definition third_name : string :=
  "20250808150000_create_production_validation_system.sql".

Definition missing_name : string :=
  "20250807120000_create_performance_monitoring.sql".

(** A policy whose predicate spans four lines. *)
Definition policy_text : str :=
  str_of "CREATE POLICY admin_only ON jobs USING (" ++
  spaced_occurrence [nl; blank; blank] [nl; blank; blank] [blank] [nl] ++
  str_of ");".

Definition demo_disk : disk :=
  {[ path_of Posix demo_name := File (Some policy_text) true ]}.

(** The fragment with [WHERE] on a line of its own. *)
Definition where_on_own_line : str :=
  spaced_occurrence [nl; blank; blank] [nl; blank; blank]
    [nl; blank; blank; blank; blank] [nl].

(** A predicate that already calls the helper next to the old fragment. *)
Definition half_fixed_text : str :=
  str_of "public.is_admin() OR " ++ single_line_occurrence.

Definition half_fixed_disk : disk :=
  {[ path_of Posix demo_name := File (Some half_fixed_text) true ]}.

(** A file with Windows line ends and no occurrence of the pattern, and a
    file with Unix line ends. *)
Definition crlf_text : str := str_of "SELECT 1;" ++ [cr; nl].
Definition lf_text : str := str_of "SELECT 1;" ++ [nl].

Definition crlf_disk : disk :=
  {[ path_of Posix demo_name := File (Some crlf_text) true ]}.

Definition lf_disk : disk :=
  {[ path_of Windows demo_name := File (Some lf_text) true ]}.

(** Three files of which the second cannot be read. *)
Definition broken_disk : disk :=
  <[ path_of Posix demo_name := File (Some policy_text) true ]>
  (<[ path_of Posix next_name := File None true ]>
   {[ path_of Posix third_name := File (Some policy_text) true ]}).

(** The fragment in other letter cases. *)
Definition lowercase_exists_text : str :=
  str_of "exists (SELECT 1 FROM user_roles WHERE user_id = auth.uid() AND role = 'admin')".

Definition capital_role_text : str :=
  str_of "EXISTS (SELECT 1 FROM user_roles WHERE user_id = auth.uid() AND Role = 'admin')".

Definition lowercase_disk : disk :=
  {[ path_of Posix demo_name := File (Some lowercase_exists_text) true ]}.


(** * The matcher *)

Lemma greedy_spaces_inv k s n :
  greedy_spaces k s = Some n →
  ∃ ws t n', s = ws ++ t ∧ spaces ws ∧ k t = Some n' ∧ n = length ws + n'.
Proof.
  revert n. induction s as [|x s IH]; simpl; intros n H.
  - exists [], [], n. repeat split; auto. constructor.
  - destruct (is_space x) eqn:Hx.
    + destruct (greedy_spaces k s) as [j|] eqn:Hg.
      * injection H as <-. destruct (IH j eq_refl) as (ws & t & n' & -> & Hws & Hk & ->).
        exists (x :: ws), t, n'. repeat split; auto. constructor; auto.
      * exists [], (x :: s), n. repeat split; auto. constructor.
    + exists [], (x :: s), n. repeat split; auto. constructor.
Qed.

Lemma greedy_spaces_take k ws t n :
  spaces ws →
  match t with x :: _ => is_space x = false | [] => True end →
  k t = Some n →
  greedy_spaces k (ws ++ t) = Some (length ws + n).
Proof.
  intros Hws Ht Hk. induction Hws as [|x ws Hx _ IH]; simpl.
  - destruct t as [|y t]; simpl in *; auto. now rewrite Ht.
  - now rewrite Hx, IH.
Qed.

Lemma chr_matches_refl fl c : chr_matches fl c c = true.
Proof. unfold chr_matches. destruct (N.testbit fl 1); apply N.eqb_refl. Qed.

Lemma matches_nil_inv m : matches [] m → m = [].
Proof. now inversion 1. Qed.

Lemma matches_lit_inv c r m :
  matches (Lit c :: r) m → ∃ m', m = c :: m' ∧ matches r m'.
Proof. inversion 1; subst; eauto. Qed.

Lemma matches_star_inv r m :
  matches (SpaceStar :: r) m →
  ∃ ws m', m = ws ++ m' ∧ spaces ws ∧ matches r m'.
Proof. inversion 1; subst; eauto. Qed.

(** A guarded pattern is matched without backtracking, whatever the flags,
    by every text it denotes, whatever follows the text. *)
Lemma match_here_complete fl r m t :
  guarded r = true → matches r m →
  match_here fl r (m ++ t) = Some (length m).
Proof.
  intros Hg Hm. induction Hm as [|c r m Hm IH|r ws m Hws Hm IH]; simpl in *.
  - reflexivity.
  - now rewrite chr_matches_refl, IH.
  - destruct r as [|[c|] r']; try discriminate.
    apply andb_prop in Hg as [Hc Hg].
    rewrite <- app_assoc, length_app.
    apply greedy_spaces_take; auto.
    apply matches_lit_inv in Hm as (m' & -> & _). simpl.
    now destruct (is_space c).
Qed.

Section CaseSensitive.
Variable fl : N.
Hypothesis fl_exact : N.testbit fl 1 = false.

Lemma chr_matches_exact c x : chr_matches fl c x = true → x = c.
Proof. unfold chr_matches. rewrite fl_exact. apply N.eqb_eq. Qed.

(** Whatever the engine matches is a text the pattern denotes. *)
Lemma match_here_sound r s n :
  match_here fl r s = Some n →
  ∃ m t, s = m ++ t ∧ matches r m ∧ n = length m.
Proof.
  revert s n. induction r as [|[c|] r IH]; simpl; intros s n H.
  - injection H as <-. exists [], s. repeat split. constructor.
  - destruct s as [|x s]; [discriminate|].
    destruct (chr_matches fl c x) eqn:Hc; [|discriminate].
    apply chr_matches_exact in Hc as ->.
    destruct (match_here fl r s) as [j|] eqn:Hj; [|discriminate].
    injection H as <-. destruct (IH _ _ Hj) as (m & t & -> & Hm & ->).
    exists (c :: m), t. repeat split. now constructor.
  - apply greedy_spaces_inv in H as (ws & t & n' & -> & Hws & Hk & ->).
    destruct (IH _ _ Hk) as (m & t' & -> & Hm & ->).
    exists (ws ++ m), t'. rewrite <- app_assoc, length_app.
    repeat split. now constructor.
Qed.

(** For a guarded pattern the engine decides the denotation. *)
Lemma match_here_spec r s n :
  guarded r = true →
  match_here fl r s = Some n ↔ ∃ m t, s = m ++ t ∧ matches r m ∧ n = length m.
Proof.
  intros Hg. split; [apply match_here_sound|].
  intros (m & t & -> & Hm & ->). now apply match_here_complete.
Qed.
End CaseSensitive.

(** No text of the pattern contains a character every atom avoids. *)
Lemma matches_avoids h r m :
  forallb (avoids h) r = true → matches r m → h ∉ m.
Proof.
  intros Hr Hm. induction Hm as [|c r m Hm IH|r ws m Hws Hm IH]; simpl in Hr.
  - apply not_elem_of_nil.
  - apply andb_prop in Hr as [Hc Hr]. apply not_elem_of_cons. split; auto.
    intros <-. now rewrite N.eqb_refl in Hc.
  - apply andb_prop in Hr as [Hc Hr]. rewrite elem_of_app. intros [Hin|Hin].
    + unfold spaces in Hws. rewrite Forall_forall in Hws.
      rewrite (Hws _ Hin) in Hc. discriminate.
    + now apply IH.
Qed.

Lemma matches_last c r m :
  last r = Some (Lit c) → matches r m → last m = Some c.
Proof.
  intros Hl Hm. induction Hm as [|c' r m Hm IH|r ws m Hws Hm IH].
  - discriminate.
  - destruct r as [|a r].
    + apply matches_nil_inv in Hm as ->. simpl in *. congruence.
    + rewrite last_cons_cons in Hl. specialize (IH Hl).
      destruct m as [|y m]; [discriminate|]. now rewrite last_cons_cons.
  - destruct r as [|a r]; [discriminate|].
    rewrite last_cons_cons in Hl. rewrite last_app. now rewrite (IH Hl).
Qed.

(** * The scan *)

(** A text that contains [a] nowhere cannot reach across an [a]. *)
Lemma starts_with_stop w p a rest :
  a ∉ w → starts_with w (p ++ a :: rest) = starts_with w p.
Proof.
  revert p. induction w as [|b w IH]; intros p Ha; [reflexivity|].
  apply not_elem_of_cons in Ha as [Hab Ha].
  destruct p as [|y p]; simpl.
  - destruct (N.eqb_spec b a); [congruence|reflexivity].
  - now rewrite IH.
Qed.

Lemma subx_drop fl r repl s k :
  k ≤ length s → subx fl r repl k s = subx fl r repl 0 (drop k s).
Proof.
  revert k. induction s as [|x s IH]; intros [|k] Hk; simpl in *;
    try reflexivity; try lia.
  apply IH. lia.
Qed.

Lemma findall_from_drop fl r s k :
  k ≤ length s → findall_from fl r k s = findall_from fl r 0 (drop k s).
Proof.
  revert k. induction s as [|x s IH]; intros [|k] Hk; simpl in *;
    try reflexivity; try lia.
  apply IH. lia.
Qed.

Section Scan.
Variables (fl : N) (r : regex) (repl : str).
Variables (c0 : N) (r1 : regex).
Hypothesis fl_exact : N.testbit fl 1 = false.
Hypothesis r_guarded : guarded r = true.
Hypothesis r_head : r = Lit c0 :: r1.

Local Abbreviation hit := (match_here fl r).
Local Abbreviation sub s := (re_sub r repl s fl).
Local Abbreviation cnt s := (snd (re_subn r repl s fl)).
Local Abbreviation fnd s := (re_findall r s fl).

Lemma hit_spec s n :
  hit s = Some n ↔ ∃ m t, s = m ++ t ∧ matches r m ∧ n = length m.
Proof. now apply match_here_spec. Qed.

Lemma hit_head x t n : hit (x :: t) = Some n → x = c0.
Proof.
  intros (m & t' & E & Hm & _)%hit_spec. rewrite r_head in Hm.
  apply matches_lit_inv in Hm as (m' & -> & _). now injection E.
Qed.

Lemma hit_nil : hit [] = None.
Proof. now rewrite r_head. Qed.

Lemma hit_pos s n : hit s = Some n → 0 < n ≤ length s.
Proof.
  intros (m & t & -> & Hm & ->)%hit_spec. rewrite r_head in Hm.
  apply matches_lit_inv in Hm as (m' & -> & _).
  rewrite length_app. simpl. lia.
Qed.

Lemma hit_other x t : x ≠ c0 → hit (x :: t) = None.
Proof.
  intros Hx. destruct (hit (x :: t)) eqn:E; [|reflexivity].
  now apply hit_head in E.
Qed.

(** The equations of the three loops. *)
Lemma re_subn_nil : re_subn r repl [] fl = ([], 0).
Proof. unfold re_subn. simpl. now rewrite hit_nil. Qed.

Lemma re_subn_hit s n :
  hit s = Some n →
  re_subn r repl s fl = (repl ++ sub (drop n s), S (cnt (drop n s))).
Proof.
  intros H. pose proof (hit_pos _ _ H) as [Hn Hl].
  unfold re_sub, re_subn. destruct s as [|x t]; [simpl in Hl; lia|].
  simpl subx. rewrite H. destruct n as [|k]; [lia|].
  simpl in Hl. rewrite subx_drop by lia. simpl drop.
  now destruct (subx fl r repl 0 (drop k t)).
Qed.

Lemma re_subn_miss x t :
  hit (x :: t) = None →
  re_subn r repl (x :: t) fl = (x :: sub t, cnt t).
Proof.
  intros H. unfold re_sub, re_subn. simpl subx. rewrite H.
  now destruct (subx fl r repl 0 t).
Qed.

Lemma sub_nil : sub [] = [].
Proof. unfold re_sub. now rewrite re_subn_nil. Qed.

Lemma sub_hit s n : hit s = Some n → sub s = repl ++ sub (drop n s).
Proof. intros H. unfold re_sub at 1. now rewrite (re_subn_hit _ _ H). Qed.

Lemma sub_miss x t : hit (x :: t) = None → sub (x :: t) = x :: sub t.
Proof. intros H. unfold re_sub at 1. now rewrite (re_subn_miss _ _ H). Qed.

Lemma fnd_nil : fnd [] = [].
Proof. unfold re_findall. simpl. now rewrite hit_nil. Qed.

Lemma fnd_hit s n :
  hit s = Some n → fnd s = take n s :: fnd (drop n s).
Proof.
  intros H. pose proof (hit_pos _ _ H) as [Hn Hl].
  unfold re_findall. destruct s as [|x t]; [simpl in Hl; lia|].
  simpl findall_from. rewrite H. destruct n as [|k]; [lia|].
  simpl in Hl. now rewrite findall_from_drop by lia.
Qed.

Lemma fnd_miss x t : hit (x :: t) = None → fnd (x :: t) = fnd t.
Proof. intros H. unfold re_findall. simpl findall_from. now rewrite H. Qed.

(** Induction along the scan: the subject is empty, or starts with a
    match and the scan resumes after it, or starts with a character that
    is copied. *)
Lemma scan_ind (P : str → Prop) :
  P [] →
  (∀ m t, matches r m → hit (m ++ t) = Some (length m) → P t → P (m ++ t)) →
  (∀ x t, hit (x :: t) = None → P t → P (x :: t)) →
  ∀ s, P s.
Proof.
  intros Hnil Hhit Hmiss s.
  induction s as [s IH] using (induction_ltof1 _ (@length N)).
  unfold ltof in IH. destruct s as [|x t]; [exact Hnil|].
  destruct (hit (x :: t)) as [n|] eqn:E.
  - pose proof (hit_pos _ _ E) as [Hn _].
    pose proof E as (m & t' & E' & Hm & ->)%hit_spec. rewrite E' in *.
    apply Hhit; auto. apply IH. rewrite length_app. lia.
  - apply Hmiss; auto.
Qed.

Local Abbreviation no_occ := (occurrence_free fl r).

Lemma no_occ_nil : no_occ [].
Proof. intros k. rewrite drop_nil. apply hit_nil. Qed.

Lemma no_occ_cons x t : no_occ (x :: t) ↔ hit (x :: t) = None ∧ no_occ t.
Proof.
  split.
  - intros H. split; [apply (H 0)|intros k; apply (H (S k))].
  - intros [H0 H] [|k]; [exact H0|apply H].
Qed.

(** On a subject without occurrence the three loops do nothing. *)
Lemma no_occ_id s : no_occ s → sub s = s ∧ cnt s = 0 ∧ fnd s = [].
Proof.
  induction s as [|x t IH].
  - intros _. now rewrite sub_nil, re_subn_nil, fnd_nil.
  - intros [H0 H]%no_occ_cons. destruct (IH H) as (IH1 & IH2 & IH3).
    rewrite sub_miss, re_subn_miss, fnd_miss by assumption. simpl.
    now rewrite IH1, IH2, IH3.
Qed.

Lemma fnd_nil_no_occ s : fnd s = [] → no_occ s.
Proof.
  induction s as [|m t Hm E IH|x t E IH] using scan_ind.
  - intros _. apply no_occ_nil.
  - rewrite (fnd_hit _ _ E). discriminate.
  - rewrite (fnd_miss _ _ E). intros H. apply no_occ_cons. auto.
Qed.

(** [re.findall] and [re.sub] walk the subject in the same steps. *)
Lemma fnd_cnt s : length (fnd s) = cnt s.
Proof.
  induction s as [|m t Hm E IH|x t E IH] using scan_ind.
  - now rewrite fnd_nil, re_subn_nil.
  - rewrite (fnd_hit _ _ E), (re_subn_hit _ _ E), drop_app_length.
    simpl. now rewrite IH.
  - now rewrite (fnd_miss _ _ E), (re_subn_miss _ _ E).
Qed.

Lemma rewrites_cons x s ms o :
  hit (x :: s) = None → rewrites fl r repl s ms o → rewrites fl r repl (x :: s) ms (x :: o).
Proof.
  intros Hx H. destruct H as [g Hg|g m t ms o Hg Hm H].
  - constructor. now apply no_occ_cons.
  - apply (rewrites_hit _ _ _ (x :: g)); auto.
    intros [|k] Hk; [exact Hx|]. apply Hg. simpl in Hk. lia.
Qed.

Lemma sub_rewrites s : rewrites fl r repl s (fnd s) (sub s).
Proof.
  induction s as [|m t Hm E IH|x t E IH] using scan_ind.
  - rewrite fnd_nil, sub_nil. constructor. apply no_occ_nil.
  - rewrite (fnd_hit _ _ E), (sub_hit _ _ E).
    rewrite take_app_length, drop_app_length.
    apply (rewrites_hit _ _ _ []); auto. simpl. lia.
  - rewrite (fnd_miss _ _ E), (sub_miss _ _ E). now apply rewrites_cons.
Qed.

Lemma sub_prefix s :
  sub s = s ∨
  ∃ g m t o, s = g ++ m ++ t ∧ matches r m ∧ sub s = g ++ repl ++ o.
Proof.
  pose proof (sub_rewrites s) as H.
  inversion H as [g Hg E1 E2 E3|g m t ms o Hg Hm H' E1 E2 E3];
    [left; congruence|].
  right. exists g, m, t, o. auto.
Qed.

(** The output is made of characters of the subject and of the
    replacement. *)
Lemma elem_of_sub s x : x ∈ sub s → x ∈ s ∨ x ∈ repl.
Proof.
  induction s as [|m t Hm E IH|y t E IH] using scan_ind.
  - rewrite sub_nil. now intros ?%elem_of_nil.
  - rewrite (sub_hit _ _ E), drop_app_length, !elem_of_app.
    intros [?|[?|?]%IH]; auto.
  - rewrite (sub_miss _ _ E), !elem_of_cons. intros [?|[?|?]%IH]; auto.
Qed.

Variables (h : N) (R' : str).
Hypothesis repl_head : repl = h :: R'.
Hypothesis h_fresh : forallb (avoids h) r = true.
Hypothesis c0_fresh : c0 ∉ repl.

(** A match found in the output up to and including the first
    replacement lies before that replacement. *)
Lemma hit_before_repl g u n :
  hit (g ++ repl ++ u) = Some n → ∃ m g', g = m ++ g' ∧ matches r m ∧ n = length m.
Proof.
  intros (m & t & E & Hm & ->)%hit_spec. exists m.
  pose proof (matches_avoids _ _ _ h_fresh Hm) as Hh.
  apply app_eq_inv in E as [(k & -> & _)|(k & -> & E)]; [eauto|].
  rewrite repl_head in E. destruct k as [|y k].
  - rewrite app_nil_r in *. exists []. now rewrite app_nil_r.
  - injection E as <- _. exfalso. apply Hh. set_solver.
Qed.

Lemma hit_sub_none s : hit s = None → hit (sub s) = None.
Proof.
  intros Hs. destruct (sub_prefix s) as [->|(g & m & t & o & -> & Hm & ->)];
    [exact Hs|].
  destruct (hit (g ++ repl ++ o)) as [n|] eqn:E; [|reflexivity].
  apply hit_before_repl in E as (m' & g' & -> & Hm' & _).
  rewrite <- app_assoc in Hs.
  now rewrite (match_here_complete fl r m' _ r_guarded Hm') in Hs.
Qed.

Lemma no_occ_fresh_app l u : c0 ∉ l → no_occ u → no_occ (l ++ u).
Proof.
  induction l as [|y l IH]; intros Hl Hu; [exact Hu|].
  apply not_elem_of_cons in Hl as [Hy Hl]. apply no_occ_cons. split; auto.
  apply hit_other. congruence.
Qed.

(** After [re.sub] the pattern occurs nowhere. *)
Lemma no_occ_sub s : no_occ (sub s).
Proof.
  induction s as [|m t Hm E IH|x t E IH] using scan_ind.
  - rewrite sub_nil. apply no_occ_nil.
  - rewrite (sub_hit _ _ E), drop_app_length. now apply no_occ_fresh_app.
  - pose proof (hit_sub_none _ E) as H. rewrite (sub_miss _ _ E) in *.
    apply no_occ_cons. auto.
Qed.

Lemma sub_idempotent s : sub (sub s) = sub s ∧ cnt (sub s) = 0 ∧ fnd (sub s) = [].
Proof. apply no_occ_id, no_occ_sub. Qed.

(** ** Counting the replacement text in the output *)

Hypothesis h_once : h ∉ R'.

Lemma starts_with_app w u : starts_with w (w ++ u) = true.
Proof. induction w as [|a w IH]; simpl; [|rewrite N.eqb_refl]; auto. Qed.

Lemma count_of_skip l u :
  h ∉ l → count_of repl (l ++ u) = count_of repl u.
Proof.
  induction l as [|y l IH]; intros Hl; [reflexivity|].
  apply not_elem_of_cons in Hl as [Hy Hl]. simpl.
  rewrite IH by assumption. rewrite repl_head. simpl.
  destruct (N.eqb_spec h y); [congruence|reflexivity].
Qed.

Lemma count_of_repl_app u : count_of repl (repl ++ u) = S (count_of repl u).
Proof.
  pose proof (count_of_skip R' u h_once) as H1.
  pose proof (starts_with_app repl u) as H2.
  rewrite repl_head in H1, H2 |- *. simpl in H2 |- *. now rewrite H2, H1.
Qed.

Lemma starts_with_sub x t :
  starts_with repl (x :: sub t) = starts_with repl (x :: t).
Proof.
  destruct (sub_prefix t) as [->|(g & m & t' & o & -> & Hm & ->)];
    [reflexivity|].
  rewrite r_head in Hm. apply matches_lit_inv in Hm as (m' & -> & _).
  assert (c0 ∉ R') as Hc by (rewrite repl_head in c0_fresh; set_solver).
  rewrite repl_head. simpl.
  now rewrite (starts_with_stop R' g h), (starts_with_stop R' g c0).
Qed.

(** Every substitution adds one occurrence of the replacement text, and
    no occurrence of it is lost or made otherwise. *)
Lemma count_of_sub s :
  count_of repl (sub s) = cnt s + count_of repl s.
Proof.
  induction s as [|m t Hm E IH|x t E IH] using scan_ind.
  - now rewrite sub_nil, re_subn_nil.
  - rewrite (sub_hit _ _ E), (re_subn_hit _ _ E), drop_app_length.
    rewrite count_of_repl_app, IH. simpl.
    rewrite (count_of_skip m t); [reflexivity|].
    exact (matches_avoids _ _ _ h_fresh Hm).
  - rewrite (sub_miss _ _ E), (re_subn_miss _ _ E).
    simpl count_of. rewrite starts_with_sub, IH. simpl. lia.
Qed.

(** ** A match in the middle of a subject *)

Variables (c1 cz : N) (r2 : regex).
Hypothesis r_second : r1 = Lit c1 :: r2.
Hypothesis c1_once : forallb (avoids c1) r2 = true.
Hypothesis r_last : last r = Some (Lit cz).
Hypothesis cz_c0 : cz ≠ c0.

Lemma matches_shape m :
  matches r m → ∃ m', m = c0 :: c1 :: m' ∧ c1 ∉ m'.
Proof.
  rewrite r_head, r_second. intros (m1 & -> & Hm)%matches_lit_inv.
  apply matches_lit_inv in Hm as (m' & -> & Hm). exists m'. split; auto.
  exact (matches_avoids _ _ _ c1_once Hm).
Qed.

(** No match starts before another match and reaches into it. *)
Lemma hit_before_match x u m post n :
  matches r m → hit ((x :: u) ++ m ++ post) = Some n →
  ∃ m1 g, x :: u = m1 ++ g ∧ matches r m1 ∧ n = length m1.
Proof.
  intros Hm (m1 & t1 & E & Hm1 & ->)%hit_spec. exists m1.
  apply app_eq_inv in E as [(k & E & _)|(k & -> & E)]; [eauto|].
  destruct k as [|y k].
  { rewrite app_nil_r in *. exists []. now rewrite app_nil_r. }
  exfalso.
  pose proof (matches_last _ _ _ r_last Hm1) as Hl.
  apply matches_shape in Hm as (m' & -> & _).
  apply matches_shape in Hm1 as (m1' & E1 & Hc1).
  injection E as <- E. destruct k as [|y2 k].
  - rewrite last_app in Hl. simpl in Hl. congruence.
  - injection E as <- _. apply Hc1. destruct u as [|z u]; simpl in E1.
    + injection E1 as _ _ <-. set_solver.
    + injection E1 as _ _ <-. set_solver.
Qed.

(** A text of the pattern is replaced where it stands, whatever is
    around it, and what is around it is rewritten as it would be alone. *)
Lemma sub_around m post pre :
  matches r m →
  sub (pre ++ m ++ post) = sub pre ++ repl ++ sub post ∧
  fnd (pre ++ m ++ post) = fnd pre ++ m :: fnd post.
Proof.
  intros Hm.
  induction pre as [|m0 t0 Hm0 E0 IH|x t E IH] using scan_ind.
  - pose proof (match_here_complete fl r m post r_guarded Hm) as E.
    simpl. rewrite (sub_hit _ _ E), (fnd_hit _ _ E).
    now rewrite sub_nil, fnd_nil, take_app_length, drop_app_length.
  - destruct IH as [IH1 IH2]. rewrite <- !app_assoc.
    pose proof (match_here_complete fl r m0 (t0 ++ m ++ post) r_guarded Hm0)
      as E.
    rewrite (sub_hit _ _ E), (fnd_hit _ _ E), (sub_hit _ _ E0), (fnd_hit _ _ E0).
    rewrite !take_app_length, !drop_app_length, IH1, IH2.
    now rewrite <- !app_assoc.
  - destruct IH as [IH1 IH2].
    assert (hit ((x :: t) ++ m ++ post) = None) as E'.
    { destruct (hit ((x :: t) ++ m ++ post)) as [n|] eqn:En; [|reflexivity].
      apply (hit_before_match _ _ _ _ _ Hm) in En as (m1 & g & Eg & Hm1 & _).
      rewrite Eg in E.
      now rewrite (match_here_complete fl r m1 g r_guarded Hm1) in E. }
    simpl app in *.
    rewrite (sub_miss _ _ E'), (fnd_miss _ _ E'), (sub_miss _ _ E), (fnd_miss _ _ E).
    now rewrite IH1, IH2.
Qed.
End Scan.


(** * The script's pattern and replacement *)

Lemma pattern_parsed : parse pattern_src = Some pattern.
Proof. reflexivity. Qed.

Lemma flags_exact : N.testbit flags 1 = false.
Proof. reflexivity. Qed.

(** [E], the first character of the pattern, is not in the replacement;
    [p], the first character of the replacement, is nowhere else in it. *)
Lemma replacement_without_E : 69%N ∉ replacement.
Proof. apply (bool_decide_unpack _). vm_compute. exact I. Qed.

Lemma replacement_p_once : 112%N ∉ tail replacement.
Proof. apply (bool_decide_unpack _). vm_compute. exact I. Qed.

Lemma replacement_without_cr : cr ∉ replacement.
Proof. apply (bool_decide_unpack _). vm_compute. exact I. Qed.

(** The side conditions of the scan theory, for the script's constants. *)
Ltac script_facts :=
  first [ exact flags_exact | exact replacement_without_E
        | exact replacement_p_once | reflexivity | discriminate ].

Lemma script_hit_spec s n :
  match_here flags pattern s = Some n ↔
  ∃ m t, s = m ++ t ∧ matches pattern m ∧ n = length m.
Proof. eapply hit_spec; script_facts. Qed.

Lemma script_no_occ_id s :
  occurrence_free flags pattern s →
  new_content_of s = s ∧ snd (re_subn pattern replacement s flags) = 0
  ∧ re_findall pattern s flags = [].
Proof. eapply no_occ_id; script_facts. Qed.

Lemma script_fnd_nil_no_occ s :
  re_findall pattern s flags = [] → occurrence_free flags pattern s.
Proof. eapply fnd_nil_no_occ; script_facts. Qed.

Lemma script_fnd_cnt s :
  replacements_of s = snd (re_subn pattern replacement s flags).
Proof. eapply fnd_cnt; script_facts. Qed.

Lemma script_rewrites s :
  rewrites flags pattern replacement s
    (re_findall pattern s flags) (new_content_of s).
Proof. eapply sub_rewrites; script_facts. Qed.

Lemma script_no_occ_sub s : occurrence_free flags pattern (new_content_of s).
Proof. eapply no_occ_sub; script_facts. Qed.

Lemma script_count_of_sub s :
  count_of replacement (new_content_of s) =
  replacements_of s + count_of replacement s.
Proof. rewrite script_fnd_cnt. eapply count_of_sub; script_facts. Qed.

Lemma script_sub_around m pre post :
  matches pattern m →
  new_content_of (pre ++ m ++ post) =
    new_content_of pre ++ replacement ++ new_content_of post ∧
  re_findall pattern (pre ++ m ++ post) flags =
    re_findall pattern pre flags ++ m :: re_findall pattern post flags.
Proof. intros Hm. eapply sub_around; try script_facts. exact Hm. Qed.

Lemma script_elem_of_sub s x :
  x ∈ new_content_of s → x ∈ s ∨ x ∈ replacement.
Proof. eapply elem_of_sub; script_facts. Qed.

Lemma replacements_of_zero s :
  replacements_of s = 0 ↔ occurrence_free flags pattern s.
Proof.
  unfold replacements_of. split.
  - intros H. apply script_fnd_nil_no_occ. now apply nil_length_inv.
  - intros H. now rewrite (proj2 (proj2 (script_no_occ_id s H))).
Qed.

(** ** The texts of the pattern *)

Lemma matches_literals l r m :
  matches r m → matches (map Lit l ++ r) (l ++ m).
Proof. intros H. induction l; simpl; [assumption|now constructor]. Qed.

(** The pattern allows white space in three places: after [EXISTS (],
    before [WHERE] and before the closing bracket. *)
Lemma pattern_tokens :
  pattern =
    map Lit tok_exists ++ SpaceStar ::
    map Lit tok_select ++ SpaceStar ::
    map Lit (tok_where ++ [blank] ++ tok_cond) ++ SpaceStar ::
    map Lit tok_close ++ [].
Proof. reflexivity. Qed.

Lemma matches_pattern_iff m :
  matches pattern m ↔
  ∃ w1 w2 w4, spaces w1 ∧ spaces w2 ∧ spaces w4 ∧
    m = spaced_occurrence w1 w2 [blank] w4.
Proof.
  split.
  - intros H. vm_compute in H.
    repeat (apply matches_lit_inv in H as (? & -> & H)).
    apply matches_star_inv in H as (w1 & ? & -> & Hw1 & H).
    repeat (apply matches_lit_inv in H as (? & -> & H)).
    apply matches_star_inv in H as (w2 & ? & -> & Hw2 & H).
    repeat (apply matches_lit_inv in H as (? & -> & H)).
    apply matches_star_inv in H as (w4 & ? & -> & Hw4 & H).
    repeat (apply matches_lit_inv in H as (? & -> & H)).
    apply matches_nil_inv in H as ->.
    exists w1, w2, w4. repeat split; auto.
  - intros (w1 & w2 & w4 & H1 & H2 & H4 & ->).
    rewrite pattern_tokens. unfold spaced_occurrence.
    apply matches_literals. constructor; [assumption|].
    apply matches_literals. constructor; [assumption|].
    replace (tok_where ++ [blank] ++ tok_cond ++ w4 ++ tok_close)
      with ((tok_where ++ [blank] ++ tok_cond) ++ w4 ++ tok_close)
      by now rewrite <- !app_assoc.
    apply matches_literals. constructor; [assumption|].
    rewrite <- (app_nil_r tok_close) at 2.
    apply matches_literals. constructor.
Qed.

Lemma matches_pattern_letters m :
  matches pattern m → letters m = letters (literals pattern).
Proof.
  assert (∀ r m, matches r m → letters m = letters (literals r)) as H.
  { clear. intros r m H. induction H as [|c r m H IH|r ws m Hws H IH]; simpl.
    - reflexivity.
    - now rewrite IH.
    - unfold letters. rewrite List.filter_app. fold (letters m). rewrite IH.
      replace (List.filter _ ws) with (@nil N); [reflexivity|].
      induction Hws as [|x ws Hx _ IHw]; simpl; [reflexivity|].
      now rewrite Hx. }
  apply H.
Qed.

(** ** Newlines *)

Lemma universal_newlines_no_cr raw : cr ∉ universal_newlines raw.
Proof.
  induction raw as [raw IH] using (induction_ltof1 _ (@length N)).
  unfold ltof in IH. destruct raw as [|x t]; simpl.
  - apply not_elem_of_nil.
  - destruct (N.eqb_spec x cr) as [->|Hx].
    + apply not_elem_of_cons. split; [discriminate|].
      destruct t as [|y t']; [apply not_elem_of_nil|].
      destruct (y =? nl)%N; apply IH; simpl; lia.
    + apply not_elem_of_cons. split; [congruence|]. apply IH. simpl. lia.
Qed.

(** Text without carriage return comes back from the file as it was
    written, on either platform. *)
Lemma read_back plat x :
  cr ∉ x → universal_newlines (translate_newlines plat x) = x.
Proof.
  induction x as [|a x IH]; [reflexivity|].
  intros [Ha Hx]%not_elem_of_cons. specialize (IH Hx).
  unfold translate_newlines in *. simpl.
  destruct (N.eqb_spec a nl) as [->|Hn].
  - destruct plat; simpl in *; now rewrite IH.
  - simpl. destruct (N.eqb_spec a cr); [congruence|]. now rewrite IH.
Qed.

Lemma new_content_no_cr s : cr ∉ s → cr ∉ new_content_of s.
Proof.
  intros Hs [H|H]%script_elem_of_sub; [auto|].
  now apply replacement_without_cr.
Qed.

Lemma read_back_new_content plat raw :
  universal_newlines
    (translate_newlines plat (new_content_of (universal_newlines raw)))
  = new_content_of (universal_newlines raw).
Proof. apply read_back, new_content_no_cr, universal_newlines_no_cr. Qed.

Lemma fix_node_idempotent plat f :
  fix_node plat (fix_node plat f) = fix_node plat f.
Proof.
  unfold fix_node. destruct (data f) as [raw|] eqn:E; simpl; [|now rewrite E].
  rewrite read_back_new_content.
  now rewrite (proj1 (script_no_occ_id _ (script_no_occ_sub _))).
Qed.

(** * The loop over the files *)

Lemma fix_file_spec plat filename d :
  fix_file plat filename d =
  Run (step_outcome plat d filename) (step_files plat d filename)
      (block plat d filename).
Proof.
  unfold fix_file, step_outcome, step_files, block, healthy_file, fix_node,
    new_content_of, replacements_of, path_of.
  unfold mbind, io_mbind, io_bind, path_exists, read_text, write_text, print.
  simpl. destruct (d !! path_join plat migrations_dir filename) as [f|] eqn:E;
    simpl; [|reflexivity].
  rewrite E. destruct (data f) as [raw|]; simpl; [|reflexivity].
  rewrite E. now destruct (writable f).
Qed.

Lemma step_files_lookup_ne plat d filename p :
  p ≠ path_of plat filename → step_files plat d filename !! p = d !! p.
Proof.
  intros Hp. unfold step_files.
  destruct (d !! path_of plat filename) as [f|]; [|reflexivity].
  destruct (healthy_file f); [|reflexivity]. now rewrite lookup_insert_ne.
Qed.

Lemma step_files_lookup plat d filename :
  step_outcome plat d filename = inr tt →
  step_files plat d filename !! path_of plat filename =
  fix_node plat <$> d !! path_of plat filename.
Proof.
  unfold step_files, step_outcome, healthy_file.
  destruct (d !! path_of plat filename) as [f|] eqn:E; simpl; [|now rewrite E].
  destruct (data f); [|discriminate].
  destruct (writable f); [|discriminate]. now rewrite lookup_insert_eq.
Qed.

(** One turn depends on the files only through the file it is about. *)
Lemma step_outcome_ext plat d d' filename :
  d' !! path_of plat filename = d !! path_of plat filename →
  step_outcome plat d' filename = step_outcome plat d filename.
Proof. unfold step_outcome. now intros ->. Qed.

Lemma block_ext plat d d' filename :
  d' !! path_of plat filename = d !! path_of plat filename →
  block plat d' filename = block plat d filename.
Proof. unfold block. now intros ->. Qed.

Lemma io_bind_ok {A B} (m : io A) (k : A → io B) d a :
  outcome (m d) = inr a →
  (m ≫= k) d =
  let r := k a (files (m d)) in
  Run (outcome r) (files r) (events (m d) ++ events r).
Proof. intros H. unfold mbind, io_mbind, io_bind. now rewrite H. Qed.

Lemma io_bind_err {A B} (m : io A) (k : A → io B) d e :
  outcome (m d) = inl e →
  (m ≫= k) d = Run (inl e) (files (m d)) (events (m d)).
Proof. intros H. unfold mbind, io_mbind, io_bind. now rewrite H. Qed.

Lemma for_each_app {A} (l1 l2 : list A) body d :
  for_each (l1 ++ l2) body d =
  (for_each l1 body ;; for_each l2 body) d.
Proof.
  revert d. induction l1 as [|x l1 IH]; intros d; simpl.
  - unfold mbind, io_mbind, io_bind, mret, io_mret, io_ret. simpl.
    now destruct (for_each l2 body d).
  - unfold mbind, io_mbind, io_bind in *. simpl.
    destruct (outcome (body x d)); [reflexivity|].
    rewrite IH. destruct (outcome (for_each l1 body (files (body x d))));
      simpl; [reflexivity|]. now rewrite app_assoc.
Qed.

Lemma paths_NoDup plat : NoDup (paths plat files_to_fix).
Proof. destruct plat; apply (bool_decide_unpack _); vm_compute; exact I. Qed.

Lemma step_ok_iff plat d filename :
  step_outcome plat d filename = inr tt ↔
  match d !! path_of plat filename with
  | Some f => healthy_file f
  | None => true
  end = true.
Proof.
  unfold step_outcome, healthy_file.
  destruct (d !! path_of plat filename) as [f|]; [|tauto].
  destruct (data f); [|split; discriminate].
  destruct (writable f); split; auto; discriminate.
Qed.

Lemma flat_map_agree {A B} (f g : A → list B) l :
  (∀ x, x ∈ l → f x = g x) → flat_map f l = flat_map g l.
Proof.
  induction l as [|x l IH]; intros H; [reflexivity|]. simpl.
  rewrite (H x) by apply list_elem_of_here. f_equal. apply IH.
  intros y Hy. apply H. now apply list_elem_of_further.
Qed.

Lemma no_io_failure_forall plat d l :
  no_io_failure plat d l = true ↔ ∀ g, g ∈ l → step_outcome plat d g = inr tt.
Proof.
  unfold no_io_failure. rewrite forallb_forall. split.
  - intros H g Hg. apply step_ok_iff, H. now apply list_elem_of_In.
  - intros H g Hg. apply step_ok_iff, H. now apply list_elem_of_In.
Qed.

Lemma no_io_failure_cons plat d f l :
  no_io_failure plat d (f :: l) = true ↔
  step_outcome plat d f = inr tt ∧ no_io_failure plat d l = true.
Proof.
  rewrite step_ok_iff. unfold no_io_failure. simpl. apply andb_true_iff.
Qed.

Lemma for_each_cons {A} (x : A) l body d :
  for_each (x :: l) body d = (body x ;; for_each l body) d.
Proof. reflexivity. Qed.

(** A batch without I/O failure: every turn runs, in the order of the
    list, each on the file as it was before the batch. *)
Lemma for_each_healthy plat l :
  NoDup (paths plat l) → ∀ d,
  no_io_failure plat d l = true →
  let r := for_each l (fix_file plat) d in
  outcome r = inr tt ∧
  events r = flat_map (block plat d) l ∧
  ∀ p, files r !! p =
       if bool_decide (p ∈ paths plat l) then fix_node plat <$> d !! p
       else d !! p.
Proof.
  induction l as [|f l IH]; intros Hnd d Hd.
  - repeat split.
  - unfold paths in Hnd. rewrite fmap_cons in Hnd.
    apply NoDup_cons in Hnd as [Hf Hnd].
    apply no_io_failure_cons in Hd as [Hok Hd].
    assert (∀ g, g ∈ l →
      step_files plat d f !! path_of plat g = d !! path_of plat g) as Hsame.
    { intros g Hg. apply step_files_lookup_ne. intros E. apply Hf.
      rewrite <- E. now apply list_elem_of_fmap_2. }
    assert (no_io_failure plat (step_files plat d f) l = true) as Hd'.
    { rewrite no_io_failure_forall in *. intros g Hg.
      rewrite (step_outcome_ext _ d); auto. }
    destruct (IH Hnd _ Hd') as (H1 & H2 & H3).
    cbv zeta. rewrite for_each_cons.
    unfold mbind, io_mbind, io_bind. rewrite fix_file_spec.
    cbn [outcome files events]. rewrite Hok.
    cbn [outcome files events]. split; [exact H1|]. split.
    + rewrite H2. cbn [flat_map]. f_equal. apply flat_map_agree. intros g Hg.
      now apply block_ext, Hsame.
    + intros p. rewrite H3. unfold paths. rewrite fmap_cons.
      fold (paths plat l).
      destruct (decide (p = path_of plat f)) as [->|Hp].
      * rewrite (bool_decide_eq_false_2 _ Hf).
        rewrite bool_decide_eq_true_2 by apply list_elem_of_here.
        now apply step_files_lookup.
      * rewrite step_files_lookup_ne by assumption.
        destruct (decide (p ∈ paths plat l)) as [Hin|Hin].
        -- rewrite !bool_decide_eq_true_2; auto. now apply list_elem_of_further.
        -- rewrite !bool_decide_eq_false_2; auto.
           intros [?|?]%elem_of_cons; auto.
Qed.

(** A batch stopped by an I/O failure: the turns before the failing file
    have run, the failing turn stops where [block] says, nothing follows. *)
Lemma for_each_failure plat l1 f l2 d :
  NoDup (paths plat (l1 ++ f :: l2)) →
  no_io_failure plat d l1 = true →
  step_outcome plat d f ≠ inr tt →
  let r1 := for_each l1 (fix_file plat) d in
  let r := for_each (l1 ++ f :: l2) (fix_file plat) d in
  outcome r = step_outcome plat d f ∧
  files r = files r1 ∧
  events r = events r1 ++ block plat d f.
Proof.
  intros Hnd Hd Hbad. unfold paths in Hnd. rewrite fmap_app in Hnd.
  apply NoDup_app in Hnd as (Hnd1 & Hdis & _).
  destruct (for_each_healthy plat l1 Hnd1 d Hd) as (H1 & H2 & H3).
  cbv zeta. rewrite for_each_app, (io_bind_ok _ _ _ _ H1). cbv zeta.
  set (d1 := files (for_each l1 (fix_file plat) d)) in *.
  assert (d1 !! path_of plat f = d !! path_of plat f) as Hsame.
  { rewrite H3. rewrite bool_decide_eq_false_2; [reflexivity|].
    intros Hin. apply (Hdis _ Hin). rewrite fmap_cons.
    apply list_elem_of_here. }
  assert (step_files plat d1 f = d1) as Hkeep.
  { unfold step_files. rewrite Hsame. unfold step_outcome in Hbad.
    unfold healthy_file.
    destruct (d !! path_of plat f) as [fl|]; [|reflexivity].
    destruct (data fl); [|reflexivity].
    destruct (writable fl); [congruence|reflexivity]. }
  destruct (step_outcome plat d f) as [e|[]] eqn:Eo; [|congruence].
  rewrite for_each_cons, (io_bind_err _ _ _ e).
  - rewrite fix_file_spec. cbn [outcome files events].
    now rewrite Hkeep, (block_ext _ _ _ _ Hsame).
  - rewrite fix_file_spec. cbn [outcome].
    now rewrite (step_outcome_ext _ _ _ _ Hsame).
Qed.

(** Either no listed file fails, or some file is the first to fail. *)
Lemma first_failure plat d l :
  no_io_failure plat d l = true ∨
  ∃ l1 f l2, l = l1 ++ f :: l2 ∧ no_io_failure plat d l1 = true ∧
             step_outcome plat d f ≠ inr tt.
Proof.
  induction l as [|f l IH]; [now left|].
  destruct (step_outcome plat d f) as [e|[]] eqn:Hok.
  - right. exists [], f, l. rewrite Hok. auto.
  - destruct IH as [IH|(l1 & g & l2 & -> & H1 & H2)].
    + left. now apply no_io_failure_cons.
    + right. exists (f :: l1), g, l2. repeat split; auto.
      now apply no_io_failure_cons.
Qed.

Lemma console_app a b : console (a ++ b) = console a ++ console b.
Proof. unfold console. apply omap_app. Qed.

Lemma console_block_ok plat d f :
  step_outcome plat d f = inr tt →
  console (block plat d f) = console_block plat d f.
Proof.
  unfold step_outcome, block, console_block.
  destruct (d !! path_of plat f) as [fl|]; [|reflexivity].
  destruct (data fl); [|discriminate].
  now destruct (writable fl).
Qed.

Lemma console_batch plat d l :
  no_io_failure plat d l = true →
  console (flat_map (block plat d) l) = flat_map (console_block plat d) l.
Proof.
  induction l as [|f l IH]; [reflexivity|].
  intros [Hf Hl]%no_io_failure_cons. cbn [flat_map].
  rewrite console_app, IH by assumption.
  f_equal. now apply console_block_ok.
Qed.

(** The whole script when no listed file fails. *)
Lemma main_healthy plat d :
  no_io_failure plat d files_to_fix = true →
  let r := main plat d in
  outcome r = inr tt ∧
  events r = flat_map (block plat d) files_to_fix ++ [Printed "Done!"] ∧
  ∀ p, files r !! p =
       if bool_decide (p ∈ paths plat files_to_fix)
       then fix_node plat <$> d !! p else d !! p.
Proof.
  intros Hd.
  destruct (for_each_healthy plat _ (paths_NoDup plat) d Hd) as (H1 & H2 & H3).
  cbv zeta. unfold main. rewrite (io_bind_ok _ _ _ _ H1).
  cbn [outcome files events print]. now rewrite H2.
Qed.

(** ** Facts about whole batches *)

Lemma step_missing plat d filename :
  d !! path_of plat filename = None →
  fix_file plat filename d =
  Run (inr tt) d [Printed ("File not found: " +:+ filename)].
Proof.
  intros H. rewrite fix_file_spec.
  unfold step_outcome, step_files, block. now rewrite H.
Qed.

Lemma step_healthy plat d filename f raw :
  d !! path_of plat filename = Some f → data f = Some raw →
  writable f = true →
  fix_file plat filename d =
  Run (inr tt)
      (<[path_of plat filename :=
           File (Some (translate_newlines plat
                         (new_content_of (universal_newlines raw)))) true]> d)
      (turn plat filename (universal_newlines raw)).
Proof.
  intros H Hr Hw. rewrite fix_file_spec.
  unfold step_outcome, step_files, block, healthy_file, fix_node, turn.
  now rewrite H, Hr, Hw.
Qed.

(** A turn never touches another path. *)
Lemma for_each_lookup_other plat l d p :
  p ∉ paths plat l → files (for_each l (fix_file plat) d) !! p = d !! p.
Proof.
  revert d. induction l as [|f l IH]; intros d Hp; [reflexivity|].
  unfold paths in Hp. rewrite fmap_cons in Hp.
  apply not_elem_of_cons in Hp as [Hf Hp].
  rewrite for_each_cons.
  destruct (outcome (fix_file plat f d)) as [e|[]] eqn:E.
  - rewrite (io_bind_err _ _ _ _ E). cbn [files].
    rewrite fix_file_spec. cbn [files]. now apply step_files_lookup_ne.
  - rewrite (io_bind_ok _ _ _ _ E). cbn [files]. rewrite IH by assumption.
    rewrite fix_file_spec. cbn [files]. now apply step_files_lookup_ne.
Qed.

(** A listed file that is missing can be struck off the list: the batch
    ends the same way, with the same files, and differs by the one line
    printed for it when its turn comes. *)
Lemma for_each_skip_missing plat l1 f l2 d :
  NoDup (paths plat (l1 ++ f :: l2)) →
  d !! path_of plat f = None →
  let r := for_each (l1 ++ f :: l2) (fix_file plat) d in
  let r' := for_each (l1 ++ l2) (fix_file plat) d in
  let r1 := for_each l1 (fix_file plat) d in
  outcome r = outcome r' ∧ files r = files r' ∧
  (outcome r1 = inr tt →
   events r = events r1 ++ [Printed ("File not found: " +:+ f)]
              ++ events (for_each l2 (fix_file plat) (files r1))).
Proof.
  intros Hnd Hf. cbv zeta. rewrite !for_each_app.
  destruct (outcome (for_each l1 (fix_file plat) d)) as [e|[]] eqn:E.
  - rewrite !(io_bind_err _ _ _ _ E). repeat split. discriminate.
  - rewrite !(io_bind_ok _ _ _ _ E). cbv zeta. cbn [outcome files events].
    set (d1 := files (for_each l1 (fix_file plat) d)).
    assert (d1 !! path_of plat f = None) as Hf1.
    { unfold d1. rewrite for_each_lookup_other; [assumption|].
      unfold paths in Hnd. rewrite fmap_app, fmap_cons in Hnd.
      apply NoDup_app in Hnd as (_ & Hdis & _). intros Hin.
      apply (Hdis _ Hin), list_elem_of_here. }
    rewrite for_each_cons.
    assert (outcome (fix_file plat f d1) = inr tt) as E1
      by now rewrite step_missing.
    rewrite (io_bind_ok _ _ _ _ E1). cbv zeta. cbn [outcome files events].
    rewrite step_missing by assumption. cbn [outcome files events].
    repeat split.
Qed.

(** After a batch without failure every listed file is in its final form:
    a second batch finds nothing to do and changes nothing. *)
Lemma fix_node_healthy plat f :
  healthy_file f = true → healthy_file (fix_node plat f) = true.
Proof. unfold healthy_file, fix_node. now destruct (data f). Qed.

Lemma batch_stable plat l d :
  NoDup (paths plat l) → no_io_failure plat d l = true →
  let d1 := files (for_each l (fix_file plat) d) in
  no_io_failure plat d1 l = true ∧ files (for_each l (fix_file plat) d1) = d1.
Proof.
  intros Hnd Hd. destruct (for_each_healthy plat l Hnd d Hd) as (_ & _ & H3).
  cbv zeta. set (d1 := files (for_each l (fix_file plat) d)) in *.
  assert (no_io_failure plat d1 l = true) as Hd1.
  { rewrite no_io_failure_forall in *. intros g Hg. specialize (Hd g Hg).
    apply step_ok_iff. apply step_ok_iff in Hd. rewrite H3.
    rewrite bool_decide_eq_true_2 by now apply list_elem_of_fmap_2.
    destruct (d !! path_of plat g) as [fl|]; simpl; [|reflexivity].
    now apply fix_node_healthy. }
  split; [exact Hd1|].
  destruct (for_each_healthy plat l Hnd d1 Hd1) as (_ & _ & H3').
  apply map_eq. intros p. rewrite H3'.
  destruct (bool_decide (p ∈ paths plat l)) eqn:Ep; [|reflexivity].
  rewrite H3, Ep. destruct (d !! p) as [fl|]; simpl; [|reflexivity].
  now rewrite fix_node_idempotent.
Qed.

Lemma main_files plat d :
  files (main plat d) = files (for_each files_to_fix (fix_file plat) d).
Proof.
  unfold main.
  destruct (outcome (for_each files_to_fix (fix_file plat) d)) as [e|[]] eqn:E.
  - now rewrite (io_bind_err _ _ _ _ E).
  - now rewrite (io_bind_ok _ _ _ _ E).
Qed.

(** The script run twice leaves the files as the script run once does,
    whether or not a failure stops it. *)
Lemma main_twice plat d :
  files (main plat (files (main plat d))) = files (main plat d).
Proof.
  rewrite !main_files. pose proof (paths_NoDup plat) as Hnd.
  destruct (first_failure plat d files_to_fix)
    as [Hd|(l1 & f & l2 & E & Hd & Hbad)].
  - now apply batch_stable.
  - rewrite E in *.
    destruct (for_each_failure plat l1 f l2 d Hnd Hd Hbad) as (_ & -> & _).
    pose proof Hnd as Hnd'. unfold paths in Hnd'. rewrite fmap_app in Hnd'.
    apply NoDup_app in Hnd' as (Hnd1 & Hdis & _).
    destruct (batch_stable plat l1 d Hnd1 Hd) as [Hd1 Hst].
    set (d1 := files (for_each l1 (fix_file plat) d)) in *.
    assert (step_outcome plat d1 f ≠ inr tt) as Hbad1.
    { rewrite (step_outcome_ext _ d); [assumption|].
      unfold d1. apply for_each_lookup_other. intros Hin.
      apply (Hdis _ Hin). rewrite fmap_cons. apply list_elem_of_here. }
    destruct (for_each_failure plat l1 f l2 d1 Hnd Hd1 Hbad1) as (_ & -> & _).
    exact Hst.
Qed.

Lemma elem_of_files_to_fix_split filename :
  filename ∈ files_to_fix →
  ∃ l1 l2, files_to_fix = l1 ++ filename :: l2.
Proof. apply list_elem_of_split. Qed.

(** In a run without failure, what happens to one listed file that
    exists. *)
Lemma main_file plat d filename f raw :
  filename ∈ files_to_fix →
  no_io_failure plat d files_to_fix = true →
  d !! path_of plat filename = Some f → data f = Some raw →
  let content := universal_newlines raw in
  let r := main plat d in
  performs (events r) (turn plat filename content) ∧
  files r !! path_of plat filename =
    Some (File (Some (translate_newlines plat (new_content_of content))) true)
  ∧ read_text (path_of plat filename) (files r) =
    Run (inr (new_content_of content)) (files r)
        [ReadFile (path_of plat filename)].
Proof.
  intros Hin Hd Hf Hraw. cbv zeta.
  destruct (main_healthy plat d Hd) as (_ & Hev & Hfiles).
  assert (writable f = true) as Hw.
  { rewrite no_io_failure_forall in Hd. specialize (Hd _ Hin).
    apply step_ok_iff in Hd. rewrite Hf in Hd. unfold healthy_file in Hd.
    now rewrite Hraw in Hd. }
  assert (files (main plat d) !! path_of plat filename =
    Some (File (Some (translate_newlines plat
           (new_content_of (universal_newlines raw)))) true)) as Hnew.
  { rewrite Hfiles.
    rewrite bool_decide_eq_true_2 by now apply list_elem_of_fmap_2.
    rewrite Hf. simpl. unfold fix_node. now rewrite Hraw. }
  split; [|split; [exact Hnew|]].
  - apply elem_of_files_to_fix_split in Hin as (l1 & l2 & E).
    rewrite Hev, E, flat_map_app. cbn [flat_map].
    exists (flat_map (block plat d) l1),
      (flat_map (block plat d) l2 ++ [Printed "Done!"]).
    rewrite <- !app_assoc. do 2 f_equal.
    unfold block, turn. now rewrite Hf, Hraw, Hw.
  - unfold read_text. rewrite Hnew. cbn [data].
    now rewrite read_back_new_content.
Qed.

(** * The properties of the script *)

Lemma script_hit_pos s n :
  match_here flags pattern s = Some n → 0 < n ≤ length s.
Proof. eapply hit_pos; script_facts. Qed.

Lemma only_in_other_case_free s :
  only_in_other_case s = true → occurrence_free flags pattern s.
Proof.
  intros H k. destruct (match_here flags pattern (drop k s)) as [n|] eqn:E;
    [exfalso|reflexivity].
  pose proof (script_hit_pos _ _ E) as [Hn Hl]. rewrite length_drop in Hl.
  apply script_hit_spec in E as (m & t & E & Hm & ->).
  unfold only_in_other_case in H. rewrite forallb_forall in H.
  specialize (H k). rewrite E in H.
  rewrite (match_here_complete flags_nocase pattern m t eq_refl Hm) in H.
  rewrite take_app_length in H. unfold other_case in H.
  rewrite (matches_pattern_letters _ Hm) in H.
  rewrite bool_decide_eq_true_2 in H by reflexivity.
  assert (In k (seq 0 (S (length s)))) as Hk by (apply in_seq; lia).
  specialize (H Hk). discriminate.
Qed.

Lemma universal_newlines_id raw : cr ∉ raw → universal_newlines raw = raw.
Proof.
  induction raw as [|x t IH]; [reflexivity|].
  intros [Hx Ht]%not_elem_of_cons. simpl.
  destruct (N.eqb_spec x cr); [congruence|]. now rewrite IH.
Qed.

Lemma translate_newlines_posix s : translate_newlines Posix s = s.
Proof.
  unfold translate_newlines. induction s as [|x t IH]; [reflexivity|].
  cbn [flat_map]. rewrite IH. now destruct (N.eqb_spec x nl) as [->|].
Qed.

Lemma done_not_in_block plat d g : Printed "Done!" ∉ block plat d g.
Proof.
  unfold block. destruct (d !! path_of plat g) as [f|].
  - destruct (data f); [destruct (writable f)|];
      repeat (apply not_elem_of_cons; split; [discriminate|]);
      apply not_elem_of_nil.
  - apply not_elem_of_cons. split; [discriminate|apply not_elem_of_nil].
Qed.

Lemma block_touches plat d g e :
  e ∈ block plat d g →
  match e with
  | Printed _ => True
  | ReadFile p | WroteFile p _ => p = path_of plat g ∧ d !! p ≠ None
  end.
Proof.
  unfold block. destruct (d !! path_of plat g) as [f|] eqn:E.
  - assert (d !! path_of plat g ≠ None) as Hs by congruence.
    destruct (data f); [destruct (writable f)|];
      repeat (intros [->|H]%elem_of_cons; [simpl; auto|revert H]);
      now intros ?%elem_of_nil.
  - intros [->|H]%elem_of_cons; [exact I|]. now apply elem_of_nil in H.
Qed.

Lemma elem_of_flat_map {A B} (f : A → list B) l y :
  y ∈ flat_map f l → ∃ x, x ∈ l ∧ y ∈ f x.
Proof.
  intros H%list_elem_of_In%in_flat_map. destruct H as (x & H1 & H2).
  exists x. split; now apply list_elem_of_In.
Qed.

(** ** Substitution *)

(** C1.  In a run that no I/O failure stops, every listed file that exists
    is read, rewritten and written back in one uninterrupted turn; the text
    written back, which is also the text the file gives when read again,
    contains no occurrence of the pattern at any position: the original
    text is cut into gaps and matches, and every match has given way to
    the replacement.  (Nothing is assumed on the number of occurrences in
    the original.) *)
Theorem C1_no_occurrence_left plat d filename f raw :
  filename ∈ files_to_fix →
  no_io_failure plat d files_to_fix = true →
  d !! path_of plat filename = Some f → data f = Some raw →
  let content := universal_newlines raw in
  let new := new_content_of content in
  let r := main plat d in
  performs (events r) (turn plat filename content) ∧
  read_text (path_of plat filename) (files r) =
    Run (inr new) (files r) [ReadFile (path_of plat filename)] ∧
  occurrence_free flags pattern new ∧
  re_findall pattern new flags = [] ∧
  rewrites flags pattern replacement content
    (re_findall pattern content flags) new.
Proof.
  intros Hin Hd Hf Hraw. cbv zeta.
  destruct (main_file plat d filename f raw Hin Hd Hf Hraw) as (H1 & _ & H3).
  pose proof (script_no_occ_sub (universal_newlines raw)) as Hfree.
  repeat split; auto.
  - apply (script_no_occ_id _ Hfree).
  - apply script_rewrites.
Qed.

Lemma C1_witness :
  let content := universal_newlines policy_text in
  let new := new_content_of content in
  let r := main Posix demo_disk in
  performs (events r) (turn Posix demo_name content) ∧
  read_text (path_of Posix demo_name) (files r) =
    Run (inr new) (files r) [ReadFile (path_of Posix demo_name)] ∧
  occurrence_free flags pattern new ∧
  re_findall pattern new flags = [] ∧
  rewrites flags pattern replacement content
    (re_findall pattern content flags) new.
Proof.
  apply (C1_no_occurrence_left Posix demo_disk demo_name
           (File (Some policy_text) true) policy_text).
  - apply (bool_decide_unpack _). vm_compute. exact I.
  - vm_compute. reflexivity.
  - vm_compute. reflexivity.
  - reflexivity.
Defined.

(** C2, as the code has it.  The pattern allows any white space, line
    ends included, in three places: after [EXISTS (], between
    [user_roles] and [WHERE], and before the closing bracket.  Such an
    occurrence, wherever it stands in a text, is replaced exactly as the
    single-line occurrence is, and the text around it is rewritten as it
    would be alone.  Between [WHERE] and [user_id] the pattern has one
    blank: every text it matches has exactly that blank there. *)
Theorem C2_whitespace_tolerance w1 w2 w4 pre post :
  spaces w1 → spaces w2 → spaces w4 →
  let occ := spaced_occurrence w1 w2 [blank] w4 in
  new_content_of (pre ++ occ ++ post) =
    new_content_of pre ++ replacement ++ new_content_of post ∧
  new_content_of (pre ++ occ ++ post) =
    new_content_of (pre ++ single_line_occurrence ++ post) ∧
  re_findall pattern (pre ++ occ ++ post) flags =
    re_findall pattern pre flags ++ occ :: re_findall pattern post flags ∧
  replacements_of (pre ++ occ ++ post) =
    replacements_of (pre ++ single_line_occurrence ++ post) ∧
  (∀ s n, match_here flags pattern s = Some n →
     ∃ v1 v2 v4, spaces v1 ∧ spaces v2 ∧ spaces v4 ∧
       take n s = spaced_occurrence v1 v2 [blank] v4).
Proof.
  intros H1 H2 H4. cbv zeta.
  assert (matches pattern (spaced_occurrence w1 w2 [blank] w4)) as Hocc.
  { apply matches_pattern_iff. exists w1, w2, w4. auto. }
  assert (matches pattern single_line_occurrence) as Hone.
  { apply matches_pattern_iff. exists [], [blank], [].
    repeat split; repeat constructor. }
  destruct (script_sub_around _ pre post Hocc) as [Hs Hf].
  destruct (script_sub_around _ pre post Hone) as [Hs1 Hf1].
  repeat split.
  - exact Hs.
  - now rewrite Hs, Hs1.
  - exact Hf.
  - unfold replacements_of. rewrite Hf, Hf1, !length_app. reflexivity.
  - intros s n (m & t & -> & Hm & ->)%script_hit_spec.
    rewrite take_app_length. now apply matches_pattern_iff.
Qed.

Lemma C2_witness :
  let occ := spaced_occurrence [nl; blank; blank] [nl; blank; blank]
               [blank] [nl] in
  let pre := str_of "CREATE POLICY admin_only ON jobs USING (" in
  let post := str_of ");" in
  new_content_of (pre ++ occ ++ post) =
    new_content_of pre ++ replacement ++ new_content_of post ∧
  new_content_of (pre ++ occ ++ post) =
    new_content_of (pre ++ single_line_occurrence ++ post) ∧
  re_findall pattern (pre ++ occ ++ post) flags =
    re_findall pattern pre flags ++ occ :: re_findall pattern post flags ∧
  replacements_of (pre ++ occ ++ post) =
    replacements_of (pre ++ single_line_occurrence ++ post) ∧
  (∀ s n, match_here flags pattern s = Some n →
     ∃ v1 v2 v4, spaces v1 ∧ spaces v2 ∧ spaces v4 ∧
       take n s = spaced_occurrence v1 v2 [blank] v4).
Proof.
  apply (C2_whitespace_tolerance [nl; blank; blank] [nl; blank; blank] [nl]);
    repeat constructor.
Defined.

(** C2 as stated fails: with a line end between [WHERE] and [user_id],
    and white space only between the five tokens, the fragment is not
    matched and is left as it is, while the single-line occurrence is
    replaced. *)
Lemma C2_counterexample :
  where_on_own_line =
    spaced_occurrence [nl; blank; blank] [nl; blank; blank]
      [nl; blank; blank; blank; blank] [nl] ∧
  spaces [nl; blank; blank] ∧ spaces [nl; blank; blank; blank; blank] ∧
  spaces [nl] ∧
  replacements_of where_on_own_line = 0 ∧
  new_content_of where_on_own_line = where_on_own_line ∧
  replacements_of single_line_occurrence = 1 ∧
  new_content_of single_line_occurrence = replacement.
Proof.
  split; [reflexivity|]. do 3 (split; [repeat constructor|]).
  vm_compute. repeat split.
Qed.

(** C3.  Substituting in a text already substituted performs no
    replacement and returns the text unchanged.  The script run a second
    time leaves every file as the first run left it; when no I/O failure
    stops the first run, the second run completes and reports 0
    replacements for every file that exists. *)
Theorem C3_idempotent :
  (∀ content,
     new_content_of (new_content_of content) = new_content_of content ∧
     snd (re_subn pattern replacement (new_content_of content) flags) = 0 ∧
     replacements_of (new_content_of content) = 0) ∧
  (∀ plat d, files (main plat (files (main plat d))) = files (main plat d)) ∧
  (∀ plat d, no_io_failure plat d files_to_fix = true →
     let again := main plat (files (main plat d)) in
     outcome again = inr tt ∧
     console (events again) =
       flat_map (quiet_block plat d) files_to_fix ++ ["Done!"]).
Proof.
  split; [|split].
  - intros content.
    destruct (script_no_occ_id _ (script_no_occ_sub content)) as (H1 & H2 & H3).
    repeat split; auto. unfold replacements_of. now rewrite H3.
  - apply main_twice.
  - intros plat d Hd. cbv zeta. rewrite main_files.
    destruct (batch_stable plat _ d (paths_NoDup plat) Hd) as [Hd1 _].
    destruct (for_each_healthy plat _ (paths_NoDup plat) d Hd) as (_ & _ & H3).
    set (d1 := files (for_each files_to_fix (fix_file plat) d)) in *.
    destruct (main_healthy plat d1 Hd1) as (Ho & He & _).
    split; [exact Ho|]. rewrite He, console_app. f_equal.
    rewrite console_batch by assumption. apply flat_map_agree.
    intros g Hg. unfold console_block, quiet_block. rewrite H3.
    rewrite bool_decide_eq_true_2 by now apply list_elem_of_fmap_2.
    rewrite no_io_failure_forall in Hd. specialize (Hd g Hg).
    apply step_ok_iff in Hd.
    destruct (d !! path_of plat g) as [fl|]; simpl; [|reflexivity].
    unfold fix_node, healthy_file in *.
    destruct (data fl) as [raw|]; [|discriminate].
    cbn [data default from_option id].
    rewrite read_back_new_content.
    now rewrite (proj2 (replacements_of_zero _) (script_no_occ_sub _)).
Qed.

Lemma C3_witness :
  let again := main Posix (files (main Posix demo_disk)) in
  outcome again = inr tt ∧
  console (events again) =
    flat_map (quiet_block Posix demo_disk) files_to_fix ++ ["Done!"].
Proof.
  apply (proj2 (proj2 C3_idempotent) Posix demo_disk).
  vm_compute. reflexivity.
Defined.

(** C4.  For a file that exists and can be read and written, the number
    printed is the number of matches [re.findall] lists in the text read;
    these are the non-overlapping occurrences of the pattern, leftmost
    first, that the substitution replaces, and their number is the number
    of substitutions performed in producing the text written. *)
Theorem C4_count_is_substitutions plat d filename f raw :
  d !! path_of plat filename = Some f → data f = Some raw →
  writable f = true →
  let content := universal_newlines raw in
  let done := re_subn pattern replacement content flags in
  events (fix_file plat filename d) =
    [ Printed ("Fixing " +:+ filename +:+ "...");
      ReadFile (path_of plat filename);
      WroteFile (path_of plat filename) (fst done);
      Printed ("  Made " +:+ show_nat (length (re_findall pattern content flags))
               +:+ " replacements") ] ∧
  length (re_findall pattern content flags) = snd done ∧
  rewrites flags pattern replacement content
    (re_findall pattern content flags) (fst done).
Proof.
  intros Hf Hraw Hw. cbv zeta.
  rewrite (step_healthy plat d filename f raw Hf Hraw Hw). cbn [events].
  repeat split.
  - apply script_fnd_cnt.
  - apply script_rewrites.
Qed.

Lemma C4_witness :
  let content := universal_newlines policy_text in
  let done := re_subn pattern replacement content flags in
  events (fix_file Posix demo_name demo_disk) =
    [ Printed ("Fixing " +:+ demo_name +:+ "...");
      ReadFile (path_of Posix demo_name);
      WroteFile (path_of Posix demo_name) (fst done);
      Printed ("  Made " +:+ show_nat (length (re_findall pattern content flags))
               +:+ " replacements") ] ∧
  length (re_findall pattern content flags) = snd done ∧
  rewrites flags pattern replacement content
    (re_findall pattern content flags) (fst done).
Proof.
  apply (C4_count_is_substitutions Posix demo_disk demo_name
           (File (Some policy_text) true) policy_text).
  - vm_compute. reflexivity.
  - reflexivity.
  - reflexivity.
Defined.

(** ** Missing files, counts and unchanged files *)

(** C5.  A listed file whose path does not exist costs one turn that
    prints [File not found: <filename>], reads and writes nothing, leaves
    the files as they are and lets the loop go on.  Striking the file off
    the list changes neither how the batch ends nor any file, and the
    output only by that line, printed when the turn is reached.  In a run
    that no I/O failure on another file stops, the line is printed, no read
    or write of the path occurs, each other listed file ends as it would
    without the missing one, and the last line printed is [Done!]. *)
Theorem C5_missing_file plat d filename l1 l2 :
  files_to_fix = l1 ++ filename :: l2 →
  d !! path_of plat filename = None →
  (∀ d', d' !! path_of plat filename = None →
     fix_file plat filename d' =
     Run (inr tt) d' [Printed ("File not found: " +:+ filename)]) ∧
  (let r := for_each files_to_fix (fix_file plat) d in
   let r' := for_each (l1 ++ l2) (fix_file plat) d in
   let r1 := for_each l1 (fix_file plat) d in
   outcome r = outcome r' ∧ files r = files r' ∧
   (outcome r1 = inr tt →
    events r = events r1 ++ [Printed ("File not found: " +:+ filename)]
               ++ events (for_each l2 (fix_file plat) (files r1)))) ∧
  (no_io_failure plat d files_to_fix = true →
   let r := main plat d in
   outcome r = inr tt ∧
   performs (console (events r)) ["File not found: " +:+ filename] ∧
   last (console (events r)) = Some "Done!"%string ∧
   (∀ e, e ∈ events r →
      e ≠ ReadFile (path_of plat filename) ∧
      ∀ text, e ≠ WroteFile (path_of plat filename) text) ∧
   files r !! path_of plat filename = None ∧
   (∀ g, g ∈ files_to_fix →
      files r !! path_of plat g = fix_node plat <$> d !! path_of plat g)).
Proof.
  intros E Hf. split; [|split].
  - intros d' Hd'. now apply step_missing.
  - pose proof (paths_NoDup plat) as Hnd. rewrite E in *.
    now apply for_each_skip_missing.
  - intros Hd. cbv zeta.
    destruct (main_healthy plat d Hd) as (Ho & He & Hfiles).
    split; [exact Ho|]. split; [|split; [|split; [|split]]].
    + rewrite He, console_app, console_batch by assumption.
      rewrite E, flat_map_app. cbn [flat_map].
      exists (flat_map (console_block plat d) l1),
        (flat_map (console_block plat d) l2 ++ console [Printed "Done!"]).
      rewrite <- !app_assoc. do 2 f_equal.
      unfold console_block. now rewrite Hf.
    + rewrite He, console_app. apply last_snoc.
    + intros e He'. rewrite He in He'.
      apply elem_of_app in He' as [He'|He'].
      * apply elem_of_flat_map in He' as (g & _ & Hg).
        apply block_touches in Hg.
        split; [|intros text]; intros ->; destruct Hg as [_ Hg]; congruence.
      * apply list_elem_of_singleton in He' as ->.
        split; [|intros text]; discriminate.
    + rewrite Hfiles, Hf. now destruct (bool_decide _).
    + intros g Hg. rewrite Hfiles.
      now rewrite bool_decide_eq_true_2 by now apply list_elem_of_fmap_2.
Qed.

Lemma C5_witness :
  demo_disk !! path_of Posix missing_name = None ∧
  no_io_failure Posix demo_disk files_to_fix = true ∧
  let r := main Posix demo_disk in
  outcome r = inr tt ∧
  performs (console (events r)) ["File not found: " +:+ missing_name] ∧
  last (console (events r)) = Some "Done!"%string ∧
  (∀ e, e ∈ events r →
     e ≠ ReadFile (path_of Posix missing_name) ∧
     ∀ text, e ≠ WroteFile (path_of Posix missing_name) text) ∧
  files r !! path_of Posix missing_name = None ∧
  (∀ g, g ∈ files_to_fix →
     files r !! path_of Posix g =
     fix_node Posix <$> demo_disk !! path_of Posix g).
Proof.
  assert (demo_disk !! path_of Posix missing_name = None) as Hf
    by (vm_compute; reflexivity).
  assert (no_io_failure Posix demo_disk files_to_fix = true) as Hd
    by (vm_compute; reflexivity).
  split; [exact Hf|]. split; [exact Hd|].
  exact (proj2 (proj2 (C5_missing_file Posix demo_disk missing_name []
                         (tail files_to_fix) eq_refl Hf)) Hd).
Defined.

(** C6, as the code has it.  In a run that no I/O failure stops, the text
    written back to a listed file that exists contains the replacement
    text [public.is_admin()] once for each of the N occurrences replaced
    and once for each place where the original text already had it: N in
    all when the original had none. *)
Theorem C6_replacement_count plat d filename f raw :
  filename ∈ files_to_fix →
  no_io_failure plat d files_to_fix = true →
  d !! path_of plat filename = Some f → data f = Some raw →
  let content := universal_newlines raw in
  let new := new_content_of content in
  let r := main plat d in
  performs (events r) (turn plat filename content) ∧
  read_text (path_of plat filename) (files r) =
    Run (inr new) (files r) [ReadFile (path_of plat filename)] ∧
  count_of replacement new =
    replacements_of content + count_of replacement content ∧
  (count_of replacement content = 0 →
   count_of replacement new = replacements_of content).
Proof.
  intros Hin Hd Hf Hraw. cbv zeta.
  destruct (main_file plat d filename f raw Hin Hd Hf Hraw) as (H1 & _ & H3).
  pose proof (script_count_of_sub (universal_newlines raw)) as Hc.
  repeat split; auto. intros H0. rewrite Hc, H0. lia.
Qed.

Lemma C6_witness :
  let content := universal_newlines policy_text in
  let new := new_content_of content in
  let r := main Posix demo_disk in
  performs (events r) (turn Posix demo_name content) ∧
  read_text (path_of Posix demo_name) (files r) =
    Run (inr new) (files r) [ReadFile (path_of Posix demo_name)] ∧
  count_of replacement new =
    replacements_of content + count_of replacement content ∧
  (count_of replacement content = 0 →
   count_of replacement new = replacements_of content).
Proof.
  apply (C6_replacement_count Posix demo_disk demo_name
           (File (Some policy_text) true) policy_text).
  - apply (bool_decide_unpack _). vm_compute. exact I.
  - vm_compute. reflexivity.
  - vm_compute. reflexivity.
  - reflexivity.
Defined.

(** C6 as stated fails: a listed file whose text already calls
    [public.is_admin()] next to one occurrence of the pattern has N = 1,
    and after the run it contains the replacement text twice. *)
Lemma C6_counterexample :
  half_fixed_disk !! path_of Posix demo_name =
    Some (File (Some half_fixed_text) true) ∧
  replacements_of (universal_newlines half_fixed_text) = 1 ∧
  ∃ new,
    files (main Posix half_fixed_disk) !! path_of Posix demo_name =
      Some (File (Some new) true) ∧
    count_of replacement new = 2.
Proof.
  split; [vm_compute; reflexivity|]. split; [vm_compute; reflexivity|].
  eexists. split; vm_compute; reflexivity.
Qed.

(** C7, as the code has it.  In a run that no I/O failure stops, for a
    listed file that exists and whose text has no occurrence of the
    pattern, the count printed is 0 and the text written is the text read.
    The file itself is stored with the line ends of the platform: on POSIX
    it is identical to the original when the original has no carriage
    return. *)
Theorem C7_no_occurrence_unchanged plat d filename f raw :
  filename ∈ files_to_fix →
  no_io_failure plat d files_to_fix = true →
  d !! path_of plat filename = Some f → data f = Some raw →
  replacements_of (universal_newlines raw) = 0 →
  let content := universal_newlines raw in
  let r := main plat d in
  new_content_of content = content ∧
  performs (events r)
    [ Printed ("Fixing " +:+ filename +:+ "...");
      ReadFile (path_of plat filename);
      WroteFile (path_of plat filename) content;
      Printed "  Made 0 replacements" ] ∧
  files r !! path_of plat filename =
    Some (File (Some (translate_newlines plat content)) true) ∧
  (plat = Posix → cr ∉ raw →
   files r !! path_of plat filename = d !! path_of plat filename).
Proof.
  intros Hin Hd Hf Hraw H0. cbv zeta.
  destruct (main_file plat d filename f raw Hin Hd Hf Hraw) as (H1 & H2 & _).
  pose proof (proj1 (replacements_of_zero _) H0) as Hfree.
  destruct (script_no_occ_id _ Hfree) as (Hid & _ & _).
  unfold turn in H1. rewrite Hid, H0 in H1. rewrite Hid in H2.
  repeat split; auto.
  intros -> Hcr. rewrite H2, Hf, translate_newlines_posix.
  rewrite universal_newlines_id by assumption.
  rewrite no_io_failure_forall in Hd. specialize (Hd _ Hin).
  apply step_ok_iff in Hd. rewrite Hf in Hd. unfold healthy_file in Hd.
  rewrite Hraw in Hd. destruct f as [dt w]. simpl in *. congruence.
Qed.

Lemma C7_witness :
  let d : disk := {[ path_of Posix demo_name := File (Some lf_text) true ]} in
  let content := universal_newlines lf_text in
  let r := main Posix d in
  replacements_of content = 0 ∧
  new_content_of content = content ∧
  performs (events r)
    [ Printed ("Fixing " +:+ demo_name +:+ "...");
      ReadFile (path_of Posix demo_name);
      WroteFile (path_of Posix demo_name) content;
      Printed "  Made 0 replacements" ] ∧
  files r !! path_of Posix demo_name =
    Some (File (Some (translate_newlines Posix content)) true) ∧
  files r !! path_of Posix demo_name = d !! path_of Posix demo_name.
Proof.
  cbv zeta.
  assert (replacements_of (universal_newlines lf_text) = 0) as H0
    by (vm_compute; reflexivity).
  assert (cr ∉ lf_text) as Hcr
    by (apply (bool_decide_unpack _); vm_compute; exact I).
  split; [exact H0|].
  destruct (C7_no_occurrence_unchanged Posix
              {[ path_of Posix demo_name := File (Some lf_text) true ]}
              demo_name (File (Some lf_text) true) lf_text)
    as (H1 & H2 & H3 & H4).
  - apply (bool_decide_unpack _). vm_compute. exact I.
  - vm_compute. reflexivity.
  - vm_compute. reflexivity.
  - reflexivity.
  - exact H0.
  - repeat split; auto.
Defined.

(** C7 as stated fails: a file with no occurrence of the pattern is not
    always left as it was.  On POSIX a file whose lines end in carriage
    return and line feed is written back with line feeds only; on Windows
    a file whose lines end in line feeds is written back with carriage
    return and line feed.  In both cases the count is 0. *)
Lemma C7_counterexample :
  (replacements_of (universal_newlines crlf_text) = 0 ∧
   crlf_disk !! path_of Posix demo_name = Some (File (Some crlf_text) true) ∧
   files (main Posix crlf_disk) !! path_of Posix demo_name =
     Some (File (Some lf_text) true) ∧
   lf_text ≠ crlf_text) ∧
  (replacements_of (universal_newlines lf_text) = 0 ∧
   lf_disk !! path_of Windows demo_name = Some (File (Some lf_text) true) ∧
   files (main Windows lf_disk) !! path_of Windows demo_name =
     Some (File (Some crlf_text) true)).
Proof.
  split; repeat split; try (vm_compute; reflexivity). discriminate.
Qed.

(** ** Console output, failures and letter case *)

(** C8.  In a run that no I/O failure stops, the console shows, for each
    file in the order of the list, [Fixing <filename>...] and
    [  Made <N> replacements] when the file exists and
    [File not found: <filename>] when it does not, and then [Done!].  The
    files are handled one after the other in that order: all the effects
    of the run are the turns of the files, each complete before the next
    begins, followed by the last line. *)
Theorem C8_console_output plat d :
  no_io_failure plat d files_to_fix = true →
  let r := main plat d in
  outcome r = inr tt ∧
  console (events r) =
    flat_map (console_block plat d) files_to_fix ++ ["Done!"] ∧
  events r = flat_map (block plat d) files_to_fix ++ [Printed "Done!"].
Proof.
  intros Hd. cbv zeta. destruct (main_healthy plat d Hd) as (Ho & He & _).
  repeat split; auto.
  rewrite He, console_app. f_equal. now apply console_batch.
Qed.

Lemma C8_witness :
  let r := main Posix demo_disk in
  outcome r = inr tt ∧
  console (events r) =
    flat_map (console_block Posix demo_disk) files_to_fix ++ ["Done!"] ∧
  events r = flat_map (block Posix demo_disk) files_to_fix ++ [Printed "Done!"].
Proof.
  apply (C8_console_output Posix demo_disk). vm_compute. reflexivity.
Defined.

(** C9.  When a listed file exists and reading or writing it fails, and
    no earlier file fails, the run ends there with the exception: nothing
    happens after the failing step, [Done!] is not printed, the files
    before the failing one are in their rewritten form, and the failing
    file and the files after it are as they were. *)
Theorem C9_failure_aborts plat d l1 filename l2 f :
  files_to_fix = l1 ++ filename :: l2 →
  no_io_failure plat d l1 = true →
  d !! path_of plat filename = Some f → healthy_file f = false →
  let r := main plat d in
  outcome r =
    inl (failure plat filename f) ∧
  events r =
    flat_map (block plat d) l1 ++
    failed_turn plat filename f ∧
  (Printed "Done!" ∉ events r) ∧
  (∀ g, g ∈ l1 →
     files r !! path_of plat g = fix_node plat <$> d !! path_of plat g) ∧
  (∀ g, g ∈ filename :: l2 →
     files r !! path_of plat g = d !! path_of plat g).
Proof.
  intros E Hd Hf Hbad. cbv zeta.
  pose proof (paths_NoDup plat) as Hnd. rewrite E in Hnd.
  assert (step_outcome plat d filename =
          inl (failure plat filename f)) as Hso.
  { unfold step_outcome, failure. rewrite Hf. unfold healthy_file in Hbad.
    destruct (data f); [now rewrite Hbad|reflexivity]. }
  assert (block plat d filename =
          failed_turn plat filename f) as Hbl.
  { unfold block, failed_turn. rewrite Hf. unfold healthy_file in Hbad.
    destruct (data f); [now rewrite Hbad|reflexivity]. }
  assert (step_outcome plat d filename ≠ inr tt) as Hne
    by (rewrite Hso; discriminate).
  destruct (for_each_failure plat l1 filename l2 d Hnd Hd Hne)
    as (Ho & Hfl & Hev).
  pose proof Hnd as Hnd'. unfold paths in Hnd'. rewrite fmap_app in Hnd'.
  apply NoDup_app in Hnd' as (Hnd1 & Hdis & _).
  destruct (for_each_healthy plat l1 Hnd1 d Hd) as (_ & Hev1 & Hfiles1).
  rewrite Hso in Ho. rewrite Hev1, Hbl in Hev.
  assert (main plat d =
          Run (inl (failure plat filename f))
              (files (for_each l1 (fix_file plat) d))
              (flat_map (block plat d) l1 ++
               failed_turn plat filename f))
    as Hmain.
  { unfold main. rewrite E, (io_bind_err _ _ _ _ Ho). now rewrite Hfl, Hev. }
  rewrite Hmain. cbn [outcome files events].
  split; [reflexivity|]. split; [reflexivity|]. split; [|split].
  - rewrite <- Hbl. intros [H|H]%elem_of_app.
    + apply elem_of_flat_map in H as (g & _ & H).
      now apply done_not_in_block in H.
    + now apply done_not_in_block in H.
  - intros g Hg. rewrite Hfiles1.
    now rewrite bool_decide_eq_true_2 by now apply list_elem_of_fmap_2.
  - intros g Hg. rewrite Hfiles1. rewrite bool_decide_eq_false_2; [reflexivity|].
    intros Hin. apply (Hdis _ Hin). change (path_of plat g ∈ paths plat (filename :: l2)).
    now apply list_elem_of_fmap_2.
Qed.

Lemma C9_witness :
  let r := main Posix broken_disk in
  outcome r = inl (ReadError (path_of Posix next_name)) ∧
  events r =
    flat_map (block Posix broken_disk) [missing_name; demo_name] ++
    [Printed ("Fixing " +:+ next_name +:+ "...")] ∧
  (Printed "Done!" ∉ events r) ∧
  (∀ g, g ∈ [missing_name; demo_name] →
     files r !! path_of Posix g =
     fix_node Posix <$> broken_disk !! path_of Posix g) ∧
  (∀ g, g ∈ next_name :: drop 3 files_to_fix →
     files r !! path_of Posix g = broken_disk !! path_of Posix g).
Proof.
  apply (C9_failure_aborts Posix broken_disk [missing_name; demo_name]
           next_name (drop 3 files_to_fix) (File None true)).
  - reflexivity.
  - vm_compute. reflexivity.
  - vm_compute. reflexivity.
  - reflexivity.
Defined.

(** C10.  Matching is case-sensitive.  In a run that no I/O failure
    stops, for a listed file that exists and in whose text the fragment,
    looked for without regard to letter case, is found only in spellings
    whose case differs from the pattern's literals, no replacement is
    performed, the count printed is 0 and the text written is the text
    read. *)
Theorem C10_case_sensitive plat d filename f raw :
  filename ∈ files_to_fix →
  no_io_failure plat d files_to_fix = true →
  d !! path_of plat filename = Some f → data f = Some raw →
  only_in_other_case (universal_newlines raw) = true →
  let content := universal_newlines raw in
  snd (re_subn pattern replacement content flags) = 0 ∧
  replacements_of content = 0 ∧
  new_content_of content = content ∧
  performs (events (main plat d))
    [ Printed ("Fixing " +:+ filename +:+ "...");
      ReadFile (path_of plat filename);
      WroteFile (path_of plat filename) content;
      Printed "  Made 0 replacements" ].
Proof.
  intros Hin Hd Hf Hraw Hcase. cbv zeta.
  destruct (main_file plat d filename f raw Hin Hd Hf Hraw) as (H1 & _ & _).
  pose proof (only_in_other_case_free _ Hcase) as Hfree.
  destruct (script_no_occ_id _ Hfree) as (Hid & Hn & Hl).
  pose proof (proj2 (replacements_of_zero _) Hfree) as H0.
  unfold turn in H1. rewrite Hid, H0 in H1. auto.
Qed.

Lemma C10_witness :
  let content := universal_newlines lowercase_exists_text in
  snd (re_subn pattern replacement content flags) = 0 ∧
  replacements_of content = 0 ∧
  new_content_of content = content ∧
  performs (events (main Posix lowercase_disk))
    [ Printed ("Fixing " +:+ demo_name +:+ "...");
      ReadFile (path_of Posix demo_name);
      WroteFile (path_of Posix demo_name) content;
      Printed "  Made 0 replacements" ].
Proof.
  apply (C10_case_sensitive Posix lowercase_disk demo_name
           (File (Some lowercase_exists_text) true) lowercase_exists_text).
  - apply (bool_decide_unpack _). vm_compute. exact I.
  - vm_compute. reflexivity.
  - vm_compute. reflexivity.
  - reflexivity.
  - vm_compute. reflexivity.
Defined.

(** The two spellings the claim names: found when case is ignored, not
    matched by the script. *)
Example other_case_spellings :
  only_in_other_case lowercase_exists_text = true ∧
  only_in_other_case capital_role_text = true ∧
  is_Some (match_here flags_nocase pattern lowercase_exists_text) ∧
  is_Some (match_here flags_nocase pattern capital_role_text) ∧
  match_here flags pattern lowercase_exists_text = None ∧
  match_here flags pattern capital_role_text = None.
Proof. vm_compute. repeat split; eauto. Qed.

(** * Further properties of the script *)

(** ** Helper facts *)



(** The whole script when some listed file fails. *)
Lemma main_failure plat d l1 f l2 :
  files_to_fix = l1 ++ f :: l2 →
  no_io_failure plat d l1 = true →
  step_outcome plat d f ≠ inr tt →
  main plat d =
  Run (step_outcome plat d f)
      (files (for_each l1 (fix_file plat) d))
      (flat_map (block plat d) l1 ++ block plat d f).
Proof.
  intros E Hd Hne. pose proof (paths_NoDup plat) as Hnd. rewrite E in Hnd.
  destruct (for_each_failure plat l1 f l2 d Hnd Hd Hne) as (Ho & Hfl & Hev).
  unfold paths in Hnd. rewrite fmap_app in Hnd.
  apply NoDup_app in Hnd as (Hnd1 & _ & _).
  destruct (for_each_healthy plat l1 Hnd1 d Hd) as (_ & Hev1 & _).
  destruct (step_outcome plat d f) as [e|[]] eqn:Eo; [|congruence].
  unfold main. rewrite E, (io_bind_err _ _ _ _ Ho).
  now rewrite Hfl, Hev, Hev1.
Qed.

(** Whatever the run, each of its effects is part of the turn of a listed
    file, or is the last line. *)
Lemma main_events_in_blocks plat d e :
  e ∈ events (main plat d) →
  e = Printed "Done!" ∨ ∃ g, g ∈ files_to_fix ∧ e ∈ block plat d g.
Proof.
  destruct (first_failure plat d files_to_fix)
    as [Hd|(l1 & f & l2 & E & Hd & Hbad)].
  - destruct (main_healthy plat d Hd) as (_ & -> & _).
    intros [H|H]%elem_of_app.
    + right. now apply elem_of_flat_map.
    + left. now apply list_elem_of_singleton in H.
  - rewrite (main_failure plat d l1 f l2 E Hd Hbad). cbn [events].
    intros [H|H]%elem_of_app; right.
    + apply elem_of_flat_map in H as (g & Hg & H). exists g. split; [|exact H].
      rewrite E. apply elem_of_app. now left.
    + exists f. split; [|exact H]. rewrite E. apply elem_of_app. right.
      apply list_elem_of_here.
Qed.

Lemma block_wrote plat d g p text :
  WroteFile p text ∈ block plat d g →
  ∃ f raw, p = path_of plat g ∧ d !! p = Some f ∧ data f = Some raw ∧
    writable f = true ∧ text = new_content_of (universal_newlines raw).
Proof.
  unfold block. destruct (d !! path_of plat g) as [f|] eqn:E.
  - destruct (data f) as [raw|] eqn:Er; [destruct (writable f) eqn:Ew|];
      repeat (intros [H|H]%elem_of_cons; [try discriminate|revert H]);
      try now intros ?%elem_of_nil.
    injection H as -> ->. exists f, raw. auto.
  - intros [H|H]%elem_of_cons; [discriminate|]. now apply elem_of_nil in H.
Qed.

Lemma block_read plat d g p :
  ReadFile p ∈ block plat d g →
  ∃ f raw, p = path_of plat g ∧ d !! p = Some f ∧ data f = Some raw.
Proof.
  unfold block. destruct (d !! path_of plat g) as [f|] eqn:E.
  - destruct (data f) as [raw|] eqn:Er; [destruct (writable f) eqn:Ew|];
      repeat (intros [H|H]%elem_of_cons; [try discriminate|revert H]);
      try (now intros ?%elem_of_nil);
      injection H as ->; exists f, raw; auto.
  - intros [H|H]%elem_of_cons; [discriminate|]. now apply elem_of_nil in H.
Qed.

(** Lengths along a substitution. *)
Lemma rewrites_length fl r repl s ms o :
  rewrites fl r repl s ms o →
  length o + total_length ms = length s + length repl * length ms.
Proof.
  induction 1 as [g Hg|g m t ms o Hg Hm H IH]; simpl.
  - lia.
  - rewrite !length_app. lia.
Qed.

Lemma rewrites_matches fl r repl s ms o :
  rewrites fl r repl s ms o → Forall (matches r) ms.
Proof. induction 1; constructor; auto. Qed.

Lemma matches_length_ge r m : matches r m → length (literals r) ≤ length m.
Proof.
  induction 1 as [|c r m H IH|r ws m Hws H IH]; simpl.
  - lia.
  - lia.
  - rewrite length_app. lia.
Qed.

Lemma total_length_ge k ms :
  Forall (fun m => k ≤ length m) ms → k * length ms ≤ total_length ms.
Proof. induction 1; simpl; nia. Qed.

(** No occurrence of the pattern starts inside another. *)
Lemma script_hit_before_match x u m post n :
  matches pattern m →
  match_here flags pattern ((x :: u) ++ m ++ post) = Some n →
  ∃ m1 g, x :: u = m1 ++ g ∧ matches pattern m1 ∧ n = length m1.
Proof.
  intros Hm.
  eapply hit_before_match with (repl := replacement);
    first [exact Hm | script_facts].
Qed.

Lemma no_hit_inside m t k :
  matches pattern m → 0 < k < length m →
  match_here flags pattern (drop k (m ++ t)) = None.
Proof.
  intros Hm Hk.
  destruct (match_here flags pattern (drop k (m ++ t))) as [n|] eqn:E;
    [exfalso|reflexivity].
  apply script_hit_spec in E as (m1 & t1 & E & Hm1 & _).
  pose proof (match_here_complete flags pattern m t eq_refl Hm) as Hhit.
  rewrite <- (take_drop k (m ++ t)), E in Hhit.
  destruct (take k (m ++ t)) as [|x u] eqn:Et.
  { apply (f_equal length) in Et. rewrite length_take, length_app in Et.
    simpl in Et. lia. }
  apply (script_hit_before_match _ _ _ _ _ Hm1) in Hhit
    as (ma & g & Eg & Hma & Hlen).
  apply (f_equal length) in Eg. rewrite <- Et in Eg.
  rewrite length_take, !length_app in Eg. lia.
Qed.

Lemma count_hits_inside m t :
  matches pattern m →
  count_hits flags pattern (m ++ t) = S (count_hits flags pattern t).
Proof.
  intros Hm.
  assert (∀ j, j ≤ length m → 0 < j →
    count_hits flags pattern (drop j (m ++ t)) = count_hits flags pattern t)
    as Htail.
  { intros j Hj. remember (length m - j) as d eqn:Ed.
    revert j Hj Ed. induction d as [|d IH]; intros j Hj Ed Hpos.
    - replace j with (length m) by lia. now rewrite drop_app_length.
    - destruct (drop j (m ++ t)) as [|x rest] eqn:Edrop.
      { apply (f_equal length) in Edrop.
        rewrite length_drop, length_app in Edrop. simpl in Edrop. lia. }
      cbn [count_hits]. rewrite <- Edrop.
      rewrite (no_hit_inside m t j Hm) by lia.
      assert (rest = drop (S j) (m ++ t)) as ->.
      { replace (S j) with (j + 1) by lia.
        now rewrite <- drop_drop, Edrop. }
      rewrite IH by lia. reflexivity. }
  pose proof (match_here_complete flags pattern m t eq_refl Hm) as Hhit.
  pose proof (script_hit_pos _ _ Hhit) as [Hpos _].
  destruct m as [|x m']; [simpl in Hpos; lia|].
  change ((x :: m') ++ t) with (x :: (m' ++ t)) in *.
  cbn [count_hits]. rewrite Hhit.
  specialize (Htail 1). simpl drop in Htail. rewrite drop_0 in Htail.
  rewrite Htail; simpl; lia.
Qed.

Lemma step_outcome_failure plat d filename :
  step_outcome plat d filename ≠ inr tt →
  ∃ f, d !! path_of plat filename = Some f ∧ healthy_file f = false ∧
       step_outcome plat d filename = inl (failure plat filename f).
Proof.
  unfold step_outcome, healthy_file, failure.
  destruct (d !! path_of plat filename) as [f|]; [|congruence].
  intros H. exists f. destruct (data f); [|auto].
  destruct (writable f); [congruence|auto].
Qed.

Lemma script_scan_ind (P : str → Prop) :
  P [] →
  (∀ m t, matches pattern m →
     match_here flags pattern (m ++ t) = Some (length m) → P t → P (m ++ t)) →
  (∀ x t, match_here flags pattern (x :: t) = None → P t → P (x :: t)) →
  ∀ s, P s.
Proof.
  exact (scan_ind flags pattern 69%N (tail pattern) flags_exact eq_refl
           eq_refl P).
Qed.

Lemma replacements_of_hit m t :
  matches pattern m → replacements_of (m ++ t) = S (replacements_of t).
Proof.
  intros Hm. unfold replacements_of.
  destruct (script_sub_around m [] t Hm) as [_ H].
  change ([] ++ m ++ t) with (m ++ t) in H. rewrite H.
  change (re_findall pattern [] flags) with (@nil str). reflexivity.
Qed.

Lemma replacements_of_miss x t :
  match_here flags pattern (x :: t) = None →
  replacements_of (x :: t) = replacements_of t.
Proof.
  intros H. unfold replacements_of. f_equal.
  eapply fnd_miss; first [exact H | script_facts].
Qed.

Lemma rewrites_total_le fl r repl s ms o :
  rewrites fl r repl s ms o → total_length ms ≤ length s.
Proof.
  induction 1 as [g Hg|g m t ms o Hg Hm H IH]; simpl; [lia|].
  rewrite !length_app. lia.
Qed.

Lemma flat_map_singleton {A B} (h : A → B) l :
  flat_map (fun x => [h x]) l = h <$> l.
Proof. induction l as [|x l IH]; simpl; [|rewrite IH]; reflexivity. Qed.

(** ** What the script touches *)



(** X2.  The script ends without an exception, and prints [Done!],
    exactly when every listed file that exists can be read and written.
    Otherwise the exception it ends with is that of the first listed file,
    in the order of the list, that fails. *)
Theorem X2_finishes_iff_no_failure plat d :
  (outcome (main plat d) = inr tt ↔
   no_io_failure plat d files_to_fix = true) ∧
  (Printed "Done!" ∈ events (main plat d) ↔
   no_io_failure plat d files_to_fix = true) ∧
  (∀ e, outcome (main plat d) = inl e →
     ∃ l1 filename l2 f,
       files_to_fix = l1 ++ filename :: l2 ∧
       no_io_failure plat d l1 = true ∧
       d !! path_of plat filename = Some f ∧ healthy_file f = false ∧
       e = failure plat filename f).
Proof.
  destruct (first_failure plat d files_to_fix)
    as [Hd|(l1 & f & l2 & E & Hd & Hbad)].
  - destruct (main_healthy plat d Hd) as (Ho & He & _).
    split; [tauto|]. split.
    + split; [auto|]. intros _. rewrite He. apply elem_of_app. right.
      apply list_elem_of_here.
    + intros e He'. congruence.
  - pose proof (main_failure plat d l1 f l2 E Hd Hbad) as Hm.
    destruct (step_outcome_failure plat d f Hbad) as (fl & Hf & Hh & Hso).
    assert (no_io_failure plat d files_to_fix ≠ true) as Hno.
    { rewrite no_io_failure_forall. intros H. apply Hbad, H.
      rewrite E. apply elem_of_app. right. apply list_elem_of_here. }
    rewrite Hm. cbn [outcome events]. rewrite Hso. split; [|split].
    + split; [discriminate|]. intros H. now destruct Hno.
    + split; [|intros H; now destruct Hno].
      intros [H|H]%elem_of_app.
      * apply elem_of_flat_map in H as (g & _ & H).
        now apply done_not_in_block in H.
      * now apply done_not_in_block in H.
    + intros e [= <-]. exists l1, f, l2, fl. auto.
Qed.

Lemma X2_witness :
  outcome (main Posix broken_disk) =
    inl (ReadError (path_of Posix next_name)) ∧
  ∃ l1 filename l2 f,
    files_to_fix = l1 ++ filename :: l2 ∧
    no_io_failure Posix broken_disk l1 = true ∧
    broken_disk !! path_of Posix filename = Some f ∧
    healthy_file f = false ∧
    ReadError (path_of Posix next_name) = failure Posix filename f.
Proof.
  assert (outcome (main Posix broken_disk) =
          inl (ReadError (path_of Posix next_name))) as H
    by (vm_compute; reflexivity).
  split; [exact H|].
  exact (proj2 (proj2 (X2_finishes_iff_no_failure Posix broken_disk)) _ H).
Defined.

(** X3.  Whatever the run, every write the script does is to the path of
    a listed file that exists and can be read and written, and the text
    written is the substitution applied to the text that file had before
    the run. *)
Theorem X3_writes_are_rewrites plat d p text :
  WroteFile p text ∈ events (main plat d) →
  ∃ filename f raw,
    filename ∈ files_to_fix ∧ p = path_of plat filename ∧
    d !! p = Some f ∧ data f = Some raw ∧ writable f = true ∧
    text = new_content_of (universal_newlines raw).
Proof.
  intros [H|(g & Hg & H)]%main_events_in_blocks; [discriminate|].
  apply block_wrote in H as (f & raw & -> & Hf & Hr & Hw & ->).
  exists g, f, raw. repeat split; auto.
Qed.

Lemma X3_witness :
  ∃ filename f raw,
    filename ∈ files_to_fix ∧
    path_of Posix demo_name = path_of Posix filename ∧
    demo_disk !! path_of Posix demo_name = Some f ∧ data f = Some raw ∧
    writable f = true ∧
    new_content_of (universal_newlines policy_text) =
      new_content_of (universal_newlines raw).
Proof.
  apply (X3_writes_are_rewrites Posix demo_disk).
  apply list_elem_of_In. vm_compute. do 3 right. left. reflexivity.
Defined.

(** ** Sizes and occurrences *)

(** X4.  The text written is the text read with each match taken out and
    17 characters put in its place.  A match has at least 78 characters,
    so N replacements need a text of at least 78 N characters and shorten
    it by at least 61 N; a text of fewer than 78 characters is never
    changed. *)
Theorem X4_lengths content :
  let n := replacements_of content in
  let found := re_findall pattern content flags in
  length (new_content_of content) + total_length found =
    length content + 17 * n ∧
  78 * n ≤ length content ∧
  length (new_content_of content) + 61 * n ≤ length content ∧
  (length content < 78 → n = 0 ∧ new_content_of content = content).
Proof.
  cbv zeta. pose proof (script_rewrites content) as H.
  pose proof (rewrites_length _ _ _ _ _ _ H) as Hlen.
  pose proof (rewrites_total_le _ _ _ _ _ _ H) as Hle.
  assert (78 * replacements_of content ≤
          total_length (re_findall pattern content flags)) as Hge.
  { apply total_length_ge. eapply Forall_impl.
    - exact (rewrites_matches _ _ _ _ _ _ H).
    - intros m Hm. pose proof (matches_length_ge _ _ Hm) as Hg.
      change (length (literals pattern)) with 78 in Hg. exact Hg. }
  change (length replacement) with 17 in Hlen.
  fold (replacements_of content) in Hlen.
  split; [lia|]. split; [lia|]. split; [lia|].
  intros Hshort. assert (replacements_of content = 0) as H0 by lia.
  split; [exact H0|].
  apply script_no_occ_id. now apply replacements_of_zero.
Qed.

Lemma X4_witness :
  replacements_of (str_of "SELECT 1;") = 0 ∧
  new_content_of (str_of "SELECT 1;") = str_of "SELECT 1;".
Proof.
  apply (proj2 (proj2 (proj2 (X4_lengths (str_of "SELECT 1;"))))).
  vm_compute. lia.
Defined.

(** X5.  After a run that no I/O failure stops, every listed file that
    exists is stored with the line ends of the platform: reading it and
    writing it back would store the same text; on POSIX it contains no
    carriage return. *)
Theorem X5_line_ends_normalised plat d filename f raw :
  filename ∈ files_to_fix →
  no_io_failure plat d files_to_fix = true →
  d !! path_of plat filename = Some f → data f = Some raw →
  ∃ stored,
    files (main plat d) !! path_of plat filename =
      Some (File (Some stored) true) ∧
    translate_newlines plat (universal_newlines stored) = stored ∧
    (plat = Posix → cr ∉ stored).
Proof.
  intros Hin Hd Hf Hraw.
  destruct (main_file plat d filename f raw Hin Hd Hf Hraw) as (_ & H2 & _).
  eexists. split; [exact H2|]. split.
  - now rewrite read_back_new_content.
  - intros ->. rewrite translate_newlines_posix.
    apply new_content_no_cr, universal_newlines_no_cr.
Qed.

Lemma X5_witness :
  ∃ stored,
    files (main Posix crlf_disk) !! path_of Posix demo_name =
      Some (File (Some stored) true) ∧
    translate_newlines Posix (universal_newlines stored) = stored ∧
    (Posix = Posix → cr ∉ stored).
Proof.
  apply (X5_line_ends_normalised Posix crlf_disk demo_name
           (File (Some crlf_text) true) crlf_text).
  - apply (bool_decide_unpack _). vm_compute. exact I.
  - vm_compute. reflexivity.
  - vm_compute. reflexivity.
  - reflexivity.
Defined.

(** X6.  Occurrences of the pattern never overlap: where the pattern
    matches, it matches at no position inside the matched text, and the
    match depends on the matched text alone, not on what follows it.  The
    count the script prints is therefore the number of all positions of
    the text at which the pattern matches. *)
Theorem X6_occurrences_never_overlap s :
  count_hits flags pattern s = replacements_of s ∧
  (∀ n, match_here flags pattern s = Some n →
     (∀ k, 0 < k < n → match_here flags pattern (drop k s) = None) ∧
     (∀ t, match_here flags pattern (take n s ++ t) = Some n)).
Proof.
  split.
  - induction s as [|m t Hm E IH|x t E IH] using script_scan_ind.
    + reflexivity.
    + now rewrite count_hits_inside, replacements_of_hit, IH.
    + rewrite replacements_of_miss by assumption. cbn [count_hits].
      now rewrite E, IH.
  - intros n (m & t & -> & Hm & ->)%script_hit_spec. split.
    + intros k Hk. now apply no_hit_inside.
    + intros t'. rewrite take_app_length.
      now apply match_here_complete.
Qed.

Lemma X6_witness :
  (∀ k, 0 < k < 79 →
     match_here flags pattern (drop k single_line_occurrence) = None) ∧
  (∀ t, match_here flags pattern (take 79 single_line_occurrence ++ t)
        = Some 79).
Proof.
  apply (proj2 (X6_occurrences_never_overlap single_line_occurrence) 79).
  vm_compute. reflexivity.
Defined.

(** X7.  When none of the listed files exists, the script leaves the
    files exactly as they are, reads and writes nothing, and prints one
    [File not found] line for each listed file, in the order of the list,
    and then [Done!]. *)
Theorem X7_no_file_present plat d :
  (∀ filename, filename ∈ files_to_fix →
     d !! path_of plat filename = None) →
  main plat d =
  Run (inr tt) d
      (((fun f => Printed ("File not found: " +:+ f)) <$> files_to_fix)
       ++ [Printed "Done!"]).
Proof.
  intros Hnone.
  assert (no_io_failure plat d files_to_fix = true) as Hd.
  { apply no_io_failure_forall. intros g Hg. unfold step_outcome.
    now rewrite (Hnone g Hg). }
  destruct (main_healthy plat d Hd) as (Ho & He & Hfiles).
  destruct (main plat d) as [o fs ev]. cbn [outcome files events] in *.
  subst o ev. f_equal.
  - apply map_eq. intros p. rewrite Hfiles.
    destruct (decide (p ∈ paths plat files_to_fix)) as [Hin|Hin].
    + rewrite bool_decide_eq_true_2 by assumption.
      apply list_elem_of_fmap_1 in Hin as (g & -> & Hg).
      now rewrite (Hnone g Hg).
    + now rewrite bool_decide_eq_false_2.
  - f_equal. rewrite <- flat_map_singleton. apply flat_map_agree.
    intros g Hg. unfold block. now rewrite (Hnone g Hg).
Qed.

Lemma X7_witness :
  main Posix ∅ =
  Run (inr tt) ∅
      (((fun f => Printed ("File not found: " +:+ f)) <$> files_to_fix)
       ++ [Printed "Done!"]).
Proof.
  apply (X7_no_file_present Posix ∅). intros filename _. apply lookup_empty.
Defined.
